(** * Token-bucket rate limiter of go-module-helper (middleware/rate_limiter.go)

    A shallow embedding of [RateLimiter], [RateLimiterStore], the cleanup
    sweep, [GetLimiter], [Allow] and the four gin middlewares built on them,
    followed by the properties of the specification that concern them.
    Around them: the context helpers of package helper, the authentication
    middlewares whose identity the rate limiter reads, and the [InArray] and
    [Contains] searches, with properties of their own.

    Conventions of the embedding.
    - Go's [int] is taken at its 64-bit width (amd64, arm64); [time.Duration]
      is an [int64] count of nanoseconds.  Both are carried by [Z], and every
      arithmetic operation of the source is written with the wrap-around Go
      gives it.
    - A [time.Time] obtained from [time.Now()] is carried by its monotonic
      clock reading, a count of nanoseconds since process start; [Sub] is the
      saturating difference of the [time] package.
    - A run-time panic is an explicit outcome ([Panicked]).
    - Mutexes are not represented: the operations below are the critical
      sections of the source, run one after the other. *)

From Stdlib Require Import ZArith Lia List Bool.
From stdpp Require Import base gmap strings list fin_maps.

Local Open Scope Z_scope.

(** ** Outcomes of a Go call *)

Inductive panic : Type :=
  | DivideByZero      (* runtime error: integer divide by zero *)
  | NilDereference    (* runtime error: invalid memory address or nil pointer dereference *)
  | TypeAssertion.    (* interface conversion: interface {} is T, not string *)

Inductive result (A : Type) : Type :=
  | Returned (a : A)
  | Panicked (p : panic).

Arguments Returned {A} a.
Arguments Panicked {A} p.

Definition bind {A B : Type} (x : result A) (f : A -> result B) : result B :=
  match x with
  | Returned a => f a
  | Panicked p => Panicked p
  end.

Notation "x <- e1 ;; e2" := (bind e1 (fun x => e2))
  (at level 100, e1 at next level, right associativity).

(** ** Go integers *)

Module GoInt.

Definition min_int : Z := - 2 ^ 63.
Definition max_int : Z := 2 ^ 63 - 1.

Definition in_range (z : Z) : Prop := min_int <= z <= max_int.

(** Two's-complement reduction of a mathematical integer to 64 bits. *)
Definition wrap (z : Z) : Z := (z + 2 ^ 63) mod 2 ^ 64 - 2 ^ 63.

Definition add (x y : Z) : Z := wrap (x + y).
Definition sub (x y : Z) : Z := wrap (x - y).

(** [x / y]: truncated towards zero; a zero divisor panics; the one
    overflowing quotient, [min_int / -1], wraps back to [min_int]. *)
Definition quo (x y : Z) : result Z :=
  if y =? 0 then Panicked DivideByZero else Returned (wrap (Z.quot x y)).

End GoInt.

(** ** package time *)

Abbreviation Duration := Z (only parsing).
Abbreviation Time := Z (only parsing).

Definition Nanosecond : Duration := 1.
Definition Second : Duration := 1000000000 * Nanosecond.
Definition Minute : Duration := 60 * Second.

(** A monotonic clock reading: a positive [int64] offset from process start
    would do; zero is allowed here as well. *)
Definition is_time (t : Time) : Prop := 0 <= t <= GoInt.max_int.

Definition saturate (z : Z) : Duration :=
  if z <? GoInt.min_int then GoInt.min_int
  else if GoInt.max_int <? z then GoInt.max_int
  else z.

(** [t.Sub(u)]: the duration [t - u], or the largest (smallest) duration when
    the difference does not fit. *)
Definition Sub (t u : Time) : Duration := saturate (t - u).

(** ** RateLimiter *)

Record RateLimiter : Type := mkRateLimiter {
  tokens : Z;                 (* int *)
  maxTokens : Z;              (* int *)
  refillRate : Duration;
  lastRefillTime : Time
}.

Definition wf_limiter (r : RateLimiter) : Prop :=
  GoInt.in_range (tokens r) /\ GoInt.in_range (maxTokens r) /\
  GoInt.in_range (refillRate r) /\ is_time (lastRefillTime r).

(** rate_limiter.go, lines 89-100: the refill half of [Allow], given the
    reading [now] of [time.Now()]. *)
Definition refill (now : Time) (r : RateLimiter) : result RateLimiter :=
  let elapsed := Sub now (lastRefillTime r) in
  tokensToAdd <- GoInt.quo elapsed (refillRate r) ;;
  if 0 <? tokensToAdd then
    let t := GoInt.add (tokens r) tokensToAdd in
    let t := if maxTokens r <? t then maxTokens r else t in
    Returned {| tokens := t;
                maxTokens := maxTokens r;
                refillRate := refillRate r;
                lastRefillTime := now |}
  else Returned r.

(** rate_limiter.go, lines 102-108: the consumption half of [Allow]. *)
Definition consume (r : RateLimiter) : RateLimiter * bool :=
  if 0 <? tokens r then
    ({| tokens := GoInt.sub (tokens r) 1;
        maxTokens := maxTokens r;
        refillRate := refillRate r;
        lastRefillTime := lastRefillTime r |}, true)
  else (r, false).

(** [func (r *RateLimiter) Allow() bool], on the limiter's fields. *)
Definition Allow (now : Time) (r : RateLimiter) : result (RateLimiter * bool) :=
  r' <- refill now r ;;
  Returned (consume r').

(** The limiter [GetLimiter] allocates (lines 71-76). *)
Definition newLimiter (maxTokens : Z) (refillRate : Duration) (now : Time) : RateLimiter :=
  {| tokens := maxTokens;
     maxTokens := maxTokens;
     refillRate := refillRate;
     lastRefillTime := now |}.

(** A run of [Allow] calls on one limiter, at the given clock readings. *)
Fixpoint Allows (nows : list Time) (r : RateLimiter) : result (RateLimiter * list bool) :=
  match nows with
  | [] => Returned (r, [])
  | now :: nows' =>
      rb <- Allow now r ;;
      rbs <- Allows nows' (fst rb) ;;
      Returned (fst rbs, snd rb :: snd rbs)
  end.

(** ** RateLimiterStore

    [limiters] is the Go map [map[string]*RateLimiter].  A [*RateLimiter] is
    an address in [cells], the limiters this store has allocated so far, in
    allocation order: two pointers are the same instance exactly when they
    are the same address, and a limiter dropped from the map lives on at its
    address for whoever still holds the pointer. *)

Record RateLimiterStore : Type := mkStore {
  limiters : gmap string nat;
  cells : list RateLimiter
}.

(** Every pointer in the map is one the store allocated. *)
Definition wf_store (s : RateLimiterStore) : Prop :=
  forall (key : string) (p : nat),
    limiters s !! key = Some p -> (p < length (cells s))%nat.

(** [NewRateLimiterStore]: an empty map (the cleanup goroutine it starts is
    [cleanup_tick] below, run at the ticker's readings). *)
Definition NewRateLimiterStore : RateLimiterStore :=
  {| limiters := ∅; cells := [] |}.

(** Line 53: has the limiter at [p] been unused for more than 30 minutes? *)
Definition inactive (now : Time) (cs : list RateLimiter) (p : nat) : bool :=
  match cs !! p with
  | Some limiter => 30 * Minute <? Sub now (lastRefillTime limiter)
  | None => false
  end.

(** One iteration of the [for range ticker.C] loop of [cleanup] (lines
    48-58), at the reading [now]: range over the map, deleting from it. *)
Definition cleanup_tick (now : Time) (s : RateLimiterStore) : RateLimiterStore :=
  {| limiters :=
       map_fold (fun key limiter (m : gmap string nat) =>
                   if inactive now (cells s) limiter then delete key m else m)
                (limiters s) (limiters s);
     cells := cells s |}.

(** [GetLimiter] (lines 63-79); [now] is the reading the composite literal
    takes when a limiter is created. *)
Definition GetLimiter (clientID : string) (maxTokens : Z) (refillRate : Duration)
    (now : Time) (s : RateLimiterStore) : nat * RateLimiterStore :=
  match limiters s !! clientID with
  | Some limiter => (limiter, s)
  | None =>
      let limiter := length (cells s) in
      (limiter,
       {| limiters := <[clientID := limiter]> (limiters s);
          cells := cells s ++ [newLimiter maxTokens refillRate now] |})
  end.

(** [limiter.Allow()] through the pointer [p]. *)
Definition Allow_at (now : Time) (p : nat) (s : RateLimiterStore)
    : result (RateLimiterStore * bool) :=
  match cells s !! p with
  | None => Panicked NilDereference
  | Some r =>
      rb <- Allow now r ;;
      Returned ({| limiters := limiters s; cells := <[p := fst rb]> (cells s) |},
                snd rb)
  end.

(** A run of [Allow] calls through the same pointer. *)
Fixpoint Allows_at (nows : list Time) (p : nat) (s : RateLimiterStore)
    : result (RateLimiterStore * list bool) :=
  match nows with
  | [] => Returned (s, [])
  | now :: nows' =>
      sb <- Allow_at now p s ;;
      sbs <- Allows_at nows' p (fst sb) ;;
      Returned (fst sbs, snd sb :: snd sbs)
  end.

(** Repeated lookups of one key, each with its own arguments
    [(maxTokens, refillRate, now)]; the pointers obtained, in order. *)
Fixpoint GetLimiters (clientID : string) (args : list (Z * Duration * Time))
    (s : RateLimiterStore) : list nat * RateLimiterStore :=
  match args with
  | [] => ([], s)
  | (maxTokens, refillRate, now) :: args' =>
      let '(limiter, s) := GetLimiter clientID maxTokens refillRate now s in
      let '(ps, s) := GetLimiters clientID args' s in
      (limiter :: ps, s)
  end.

(** ** The gin context and the response helper (helper/response.go) *)

(** Values this repository keeps under context keys. *)
Inductive any : Type :=
  | AnyString (s : string)
  | AnyUUID (u : string)
  | AnyBool (b : bool).

Record ErrorInfo : Type := mkErrorInfo {
  Code : string;
  Message : string;
  Details : string
}.

Record Response : Type := mkResponse {
  Success : bool;
  Data : option any;
  Error : option ErrorInfo
}.

(** What a handler can see and do through [*gin.Context]: the client address,
    the keys set by earlier handlers, the request headers; the status and the
    value handed to [c.JSON] for rendering; and whether the chain was
    aborted. *)
Record Context : Type := mkContext {
  ClientIP : string;
  Keys : gmap string any;
  Header : gmap string string;
  Written : option (Z * Response);
  Aborted : bool
}.

Definition Get (key : string) (c : Context) : option any := Keys c !! key.

Definition GetHeader (key : string) (c : Context) : string :=
  default EmptyString (Header c !! key).

Definition JSON (code : Z) (obj : Response) (c : Context) : Context :=
  {| ClientIP := ClientIP c; Keys := Keys c; Header := Header c;
     Written := Some (code, obj); Aborted := Aborted c |}.

Definition Abort (c : Context) : Context :=
  {| ClientIP := ClientIP c; Keys := Keys c; Header := Header c;
     Written := Written c; Aborted := true |}.

(** helper.ErrorResponse (response.go, lines 30-38). *)
Definition ErrorResponse (c : Context) (statusCode : Z) (code message : string) : Context :=
  JSON statusCode
       {| Success := false;
          Data := None;
          Error := Some {| Code := code; Message := message; Details := EmptyString |} |}
       c.

Definition StatusTooManyRequests : Z := 429.
Definition ContextKeyUserID : string := "user_id".

(** ** The middlewares

    A [gin.HandlerFunc] built by one of the constructors closes over its
    store and its two settings.  Here the handler is a function of
    - [next], what [c.Next()] does to the context (the rest of the chain),
    - [nowG] and [nowA], the clock readings inside [GetLimiter] and [Allow],
    - the current store and the context,
    and the constructor returns it together with the store it created. *)

Definition HandlerFunc : Type :=
  (Context -> Context) -> Time -> Time -> RateLimiterStore -> Context ->
  result (RateLimiterStore * Context).

(** Lines 119-144. *)
Definition RateLimitMiddleware (maxRequests : Z) (window : Duration)
    : result (RateLimiterStore * HandlerFunc) :=
  let store := NewRateLimiterStore in
  refillRate <- GoInt.quo window maxRequests ;;
  Returned (store, fun next nowG nowA store c =>
    let clientID := ClientIP c in
    clientID <- match Get ContextKeyUserID c with
                | Some (AnyString userID) => Returned userID
                | Some _ => Panicked TypeAssertion
                | None => Returned clientID
                end ;;
    let '(limiter, store) := GetLimiter clientID maxRequests refillRate nowG store in
    sb <- Allow_at nowA limiter store ;;
    if negb (snd sb) then
      let c := ErrorResponse c StatusTooManyRequests "RATE_LIMIT_EXCEEDED"
                 "Too many requests. Please try again later." in
      Returned (fst sb, Abort c)
    else Returned (fst sb, next c)).

(** Lines 152-168. *)
Definition IPRateLimitMiddleware (maxRequests : Z) (window : Duration)
    : result (RateLimiterStore * HandlerFunc) :=
  let store := NewRateLimiterStore in
  refillRate <- GoInt.quo window maxRequests ;;
  Returned (store, fun next nowG nowA store c =>
    let clientID := ClientIP c in
    let '(limiter, store) := GetLimiter clientID maxRequests refillRate nowG store in
    sb <- Allow_at nowA limiter store ;;
    if negb (snd sb) then
      let c := ErrorResponse c StatusTooManyRequests "RATE_LIMIT_EXCEEDED"
                 "Too many requests from this IP. Please try again later." in
      Returned (fst sb, Abort c)
    else Returned (fst sb, next c)).

(** Lines 179-199. *)
Definition APIKeyRateLimitMiddleware (maxRequests : Z) (window : Duration)
    : result (RateLimiterStore * HandlerFunc) :=
  let store := NewRateLimiterStore in
  refillRate <- GoInt.quo window maxRequests ;;
  Returned (store, fun next nowG nowA store c =>
    let apiKey := GetHeader "API-Key" c in
    let apiKey := if String.eqb apiKey EmptyString then ClientIP c else apiKey in
    let '(limiter, store) := GetLimiter apiKey maxRequests refillRate nowG store in
    sb <- Allow_at nowA limiter store ;;
    if negb (snd sb) then
      let c := ErrorResponse c StatusTooManyRequests "RATE_LIMIT_EXCEEDED"
                 "API rate limit exceeded. Please try again later." in
      Returned (fst sb, Abort c)
    else Returned (fst sb, next c)).

(** Lines 212-232. *)
Definition CustomRateLimitMiddleware (maxRequests : Z) (window : Duration)
    (getClientID : Context -> string) : result (RateLimiterStore * HandlerFunc) :=
  let store := NewRateLimiterStore in
  refillRate <- GoInt.quo window maxRequests ;;
  Returned (store, fun next nowG nowA store c =>
    let clientID := getClientID c in
    let clientID := if String.eqb clientID EmptyString then ClientIP c else clientID in
    let '(limiter, store) := GetLimiter clientID maxRequests refillRate nowG store in
    sb <- Allow_at nowA limiter store ;;
    if negb (snd sb) then
      let c := ErrorResponse c StatusTooManyRequests "RATE_LIMIT_EXCEEDED"
                 "Rate limit exceeded. Please try again later." in
      Returned (fst sb, Abort c)
    else Returned (fst sb, next c)).

(** ** What the specification says [Allow] does

    The refill and consumption rules in the specification's own terms:
    mathematical integers, the plain difference of the two instants and the
    floor of the quotient. *)

Definition spec_refill (now : Time) (r : RateLimiter) : RateLimiter :=
  let elapsed := now - lastRefillTime r in
  let tokensToAdd := elapsed / refillRate r in
  if 0 <? tokensToAdd then
    {| tokens := Z.min (tokens r + tokensToAdd) (maxTokens r);
       maxTokens := maxTokens r;
       refillRate := refillRate r;
       lastRefillTime := now |}
  else r.

Definition spec_Allow (now : Time) (r : RateLimiter) : RateLimiter * bool :=
  let r' := spec_refill now r in
  if 0 <? tokens r' then
    ({| tokens := tokens r' - 1;
        maxTokens := maxTokens r';
        refillRate := refillRate r';
        lastRefillTime := lastRefillTime r' |}, true)
  else (r', false).

(** The throttling response of the specification: status 429, a body
    whose error object carries the code and a message, and the chain
    aborted. *)
Definition spec_rejection (message : string) (c : Context) : Context :=
  {| ClientIP := ClientIP c; Keys := Keys c; Header := Header c;
     Written := Some (429, {| Success := false;
                              Data := None;
                              Error := Some {| Code := "RATE_LIMIT_EXCEEDED";
                                               Message := message;
                                               Details := EmptyString |} |});
     Aborted := true |}.

(** The client-key policies of the four middlewares: authenticated identity
    with the source address as default (no key when the stored identity is
    not a string: the handler panics before it reaches the limiter), source
    address, caller-supplied header, custom extraction. *)
Definition key_by_identity (c : Context) : option string :=
  match Keys c !! "user_id" with
  | Some (AnyString userID) => Some userID
  | Some _ => None
  | None => Some (ClientIP c)
  end.

Definition key_by_address (c : Context) : option string := Some (ClientIP c).

Definition key_by_header (c : Context) : option string :=
  match Header c !! "API-Key" with
  | Some (String a k) => Some (String a k)
  | _ => Some (ClientIP c)
  end.

Definition key_by_function (getClientID : Context -> string) (c : Context) : option string :=
  match getClientID c with
  | String a k => Some (String a k)
  | EmptyString => Some (ClientIP c)
  end.

(** A handler that throttles by [Allow] on the limiter of the derived key:
    whenever that call returns, the handler returns with the store the call
    left, having passed control on ([next]) when the answer is [true] and
    having rejected the request when it is [false]. *)
Definition throttles (h : HandlerFunc) (maxRequests : Z) (refillRate : Duration)
    (key_of : Context -> option string) (message : string) : Prop :=
  forall (next : Context -> Context) (nowG nowA : Time) (s s' : RateLimiterStore)
         (c : Context) (key : string) (b : bool),
    key_of c = Some key ->
    Allow_at nowA (fst (GetLimiter key maxRequests refillRate nowG s))
                  (snd (GetLimiter key maxRequests refillRate nowG s))
      = Returned (s', b) ->
    h next nowG nowA s c =
      Returned (s', if b then next c else spec_rejection message c).

(** The data-model invariant of a limiter. *)
Definition bucket_inv (r : RateLimiter) : Prop := 0 <= tokens r <= maxTokens r.

(** ** Further notions used by the properties below *)

(** How many calls of a run were allowed. *)
Definition admitted (bs : list bool) : Z := Z.of_nat (count_occ bool_dec bs true).

(** The registry never aliases: every pointer in the map is allocated, and
    no two keys share a pointer. *)
Definition store_inv (s : RateLimiterStore) : Prop :=
  wf_store s /\
  forall (k1 k2 : string) (p : nat),
    limiters s !! k1 = Some p -> limiters s !! k2 = Some p -> k1 = k2.

(** The stores a program can get to: from a new store, by lookups, by
    calls through any pointer it holds (registered or not any more), and by
    sweeps. *)
Inductive reachable : RateLimiterStore -> Prop :=
  | reachable_new : reachable NewRateLimiterStore
  | reachable_GetLimiter (clientID : string) (maxTokens : Z) (refillRate : Duration)
      (now : Time) (s : RateLimiterStore) :
      reachable s -> reachable (snd (GetLimiter clientID maxTokens refillRate now s))
  | reachable_Allow (now : Time) (p : nat) (s s' : RateLimiterStore) (b : bool) :
      reachable s -> Allow_at now p s = Returned (s', b) -> reachable s'
  | reachable_cleanup (now : Time) (s : RateLimiterStore) :
      reachable s -> reachable (cleanup_tick now s).

(** Every limiter of the store has the interval [d]: the stores of a
    middleware, whose handler passes the same [refillRate] to every lookup. *)
Definition store_of_interval (d : Duration) (s : RateLimiterStore) : Prop :=
  wf_store s /\ Forall (fun r => refillRate r = d) (cells s).

(** The store a handler run leaves, or the panic it ends in. *)
Definition store_after (x : result (RateLimiterStore * Context)) : result RateLimiterStore :=
  match x with
  | Returned (s, _) => Returned s
  | Panicked p => Panicked p
  end.

(** A handler that serves every request it can derive a key for: on a store
    of its interval it returns, and leaves such a store. *)
Definition serves (h : HandlerFunc) (d : Duration)
    (key_of : Context -> option string) : Prop :=
  forall (next : Context -> Context) (nowG nowA : Time) (s : RateLimiterStore)
         (c : Context) (key : string),
    store_of_interval d s -> key_of c = Some key ->
    exists s' c', h next nowG nowA s c = Returned (s', c') /\ store_of_interval d s'.

(** A handler that fails every such request with a division by zero. *)
Definition always_divides_by_zero (h : HandlerFunc)
    (key_of : Context -> option string) : Prop :=
  forall (next : Context -> Context) (nowG nowA : Time) (s : RateLimiterStore)
         (c : Context) (key : string),
    store_of_interval 0 s -> key_of c = Some key ->
    h next nowG nowA s c = Panicked DivideByZero.

(** ** More of gin and of package helper *)

(** [c.Set(key, value)]. *)
Definition SetKey (key : string) (value : any) (c : Context) : Context :=
  {| ClientIP := ClientIP c; Keys := <[key := value]> (Keys c); Header := Header c;
     Written := Written c; Aborted := Aborted c |}.

Definition ContextKeyAPIKeyAuth : string := "api_key_auth".

(** [uuid.Nil]; a UUID is carried by its canonical text. *)
Definition uuid_Nil : string := "00000000-0000-0000-0000-000000000000".

(** helper.GetUserIDFromContext: the stored value asserted to be a UUID. *)
Definition GetUserIDFromContext (c : Context) : string * bool :=
  match Get ContextKeyUserID c with
  | None => (uuid_Nil, false)
  | Some userID =>
      match userID with
      | AnyUUID id => (id, true)
      | _ => (uuid_Nil, false)
      end
  end.

(** helper.IsAPIKeyAuth. *)
Definition IsAPIKeyAuth (c : Context) : bool :=
  match Get ContextKeyAPIKeyAuth c with
  | None => false
  | Some apiKeyAuth =>
      match apiKeyAuth with
      | AnyBool isAuth => isAuth
      | _ => false
      end
  end.

(** ** package strings *)

Fixpoint stripPrefix (prefix s : string) : option string :=
  match prefix with
  | EmptyString => Some s
  | String p prefix' =>
      match s with
      | String a s' => if Ascii.eqb a p then stripPrefix prefix' s' else None
      | EmptyString => None
      end
  end.

(** [strings.TrimPrefix(s, prefix)]: [s] without the leading [prefix], or
    [s] itself when it does not start with it. *)
Definition TrimPrefix (s prefix : string) : string :=
  default s (stripPrefix prefix s).

(** ** The authentication middlewares (middleware/authorization.go)

    A handler is a function of [next], what [c.Next()] does to the context,
    and of the context.  Two library calls are parameters:
    - [jwtParse tokenString jwtSecret] stands for [jwt.Parse] with the
      HMAC-only key function of the source: the claims of the token when
      [err == nil && token.Valid], nothing otherwise ([jwt.Parse] fills
      [token.Claims] with a [jwt.MapClaims], so the assertion the source
      makes on it holds);
    - [uuidParse] stands for [uuid.Parse]. *)

Definition StatusUnauthorized : Z := 401.

Section Authorization.

Variable jwtParse : string -> string -> option (gmap string any).
Variable uuidParse : string -> option string.

(** Lines 22-48. *)
Definition APIKeyAuthMiddleware (apiKey : string) (next : Context -> Context)
    (c : Context) : Context :=
  if String.eqb apiKey EmptyString then next c
  else
    let apiKeyHeader := GetHeader "API-Key" c in
    if String.eqb apiKeyHeader EmptyString then
      Abort (ErrorResponse c StatusUnauthorized "MISSING_API_KEY"
               "API-Key header is required")
    else if negb (String.eqb apiKeyHeader apiKey) then
      Abort (ErrorResponse c StatusUnauthorized "INVALID_API_KEY" "Invalid API Key")
    else
      next (SetKey ContextKeyAPIKeyAuth (AnyBool true) c).

(** Lines 122-166. *)
Definition JWTAuthMiddleware (jwtSecret : string) (next : Context -> Context)
    (c : Context) : Context :=
  let authHeader := GetHeader "Authorization" c in
  if String.eqb authHeader EmptyString then
    Abort (ErrorResponse c StatusUnauthorized "MISSING_TOKEN"
             "Authorization header is required")
  else
    let tokenString := TrimPrefix authHeader "Bearer " in
    if String.eqb tokenString authHeader then
      Abort (ErrorResponse c StatusUnauthorized "INVALID_TOKEN_FORMAT"
               "Token must be in Bearer format")
    else
      match jwtParse tokenString jwtSecret with
      | None =>
          Abort (ErrorResponse c StatusUnauthorized "INVALID_TOKEN"
                   "Token is invalid or expired")
      | Some claims =>
          let c :=
            match claims !! "user_id" with
            | Some (AnyString userIDStr) =>
                match uuidParse userIDStr with
                | Some userID => SetKey ContextKeyUserID (AnyUUID userID) c
                | None => c
                end
            | _ => c
            end in
          next c
      end.

(** Lines 58-111. *)
Definition APIKeyOrJWTAuthMiddleware (apiKey jwtSecret : string)
    (next : Context -> Context) (c : Context) : Context :=
  let apiKeyHeader := GetHeader "API-Key" c in
  if negb (String.eqb apiKeyHeader EmptyString) && negb (String.eqb apiKey EmptyString)
     && String.eqb apiKeyHeader apiKey then
    next (SetKey ContextKeyAPIKeyAuth (AnyBool true) c)
  else
    let authHeader := GetHeader "Authorization" c in
    if String.eqb authHeader EmptyString then
      Abort (ErrorResponse c StatusUnauthorized "MISSING_AUTH"
               "API-Key or Authorization header is required")
    else
      let tokenString := TrimPrefix authHeader "Bearer " in
      if String.eqb tokenString authHeader then
        Abort (ErrorResponse c StatusUnauthorized "INVALID_TOKEN_FORMAT"
                 "Token must be in Bearer format")
      else
        match jwtParse tokenString jwtSecret with
        | None =>
            Abort (ErrorResponse c StatusUnauthorized "INVALID_TOKEN"
                     "Token is invalid or expired")
        | Some claims =>
            let c :=
              match claims !! "user_id" with
              | Some (AnyString userIDStr) =>
                  match uuidParse userIDStr with
                  | Some userID => SetKey ContextKeyUserID (AnyUUID userID) c
                  | None => c
                  end
              | _ => c
              end in
            next c
        end.

(** Lines 176-209. *)
Definition OptionalJWTAuthMiddleware (jwtSecret : string) (next : Context -> Context)
    (c : Context) : Context :=
  let authHeader := GetHeader "Authorization" c in
  if String.eqb authHeader EmptyString then next c
  else
    let tokenString := TrimPrefix authHeader "Bearer " in
    if String.eqb tokenString authHeader then next c
    else
      let c :=
        match jwtParse tokenString jwtSecret with
        | Some claims =>
            match claims !! "user_id" with
            | Some (AnyString userIDStr) =>
                match uuidParse userIDStr with
                | Some userID => SetKey ContextKeyUserID (AnyUUID userID) c
                | None => c
                end
            | _ => c
            end
        | None => c
        end in
      next c.

End Authorization.

(** An authentication failure as the middlewares report it. *)
Definition spec_unauthorized (code message : string) (c : Context) : Context :=
  {| ClientIP := ClientIP c; Keys := Keys c; Header := Header c;
     Written := Some (401, {| Success := false;
                              Data := None;
                              Error := Some {| Code := code;
                                               Message := message;
                                               Details := EmptyString |} |});
     Aborted := true |}.

(** ** InArray and Contains (helper/response.go, lines 53-90)

    Dynamic values: what an [interface{}] argument can hold here. *)

Local Set Warnings "-register-all".

Inductive value : Type :=
  | VNil
  | VString (s : string)
  | VInt (n : Z)
  | VBool (b : bool)
  | VStrings (arr : list string)      (* []string *)
  | VInts (arr : list Z)              (* []int *)
  | VValues (arr : list value).       (* []interface{} *)

(** [v == w] on two interface values: equal dynamic types and equal values;
    comparing two values of the same slice type is a run-time panic
    ([None]). *)
Definition interface_eq (v w : value) : option bool :=
  match v, w with
  | VNil, VNil => Some true
  | VString a, VString b => Some (String.eqb a b)
  | VInt a, VInt b => Some (a =? b)
  | VBool a, VBool b => Some (Bool.eqb a b)
  | VStrings _, VStrings _ => None
  | VInts _, VInts _ => None
  | VValues _, VValues _ => None
  | _, _ => Some false
  end.

(** The dynamic types whose values [==] can compare. *)
Definition comparable (v : value) : bool :=
  match v with
  | VNil | VString _ | VInt _ | VBool _ => true
  | VStrings _ | VInts _ | VValues _ => false
  end.

(** The three [for i, v := range arr] loops, from index [i] on. *)
Fixpoint rangeStrings (str : string) (arr : list string) (i : Z) : bool * Z :=
  match arr with
  | [] => (false, -1)
  | v :: arr' => if String.eqb v str then (true, i) else rangeStrings str arr' (i + 1)
  end.

Fixpoint rangeInts (num : Z) (arr : list Z) (i : Z) : bool * Z :=
  match arr with
  | [] => (false, -1)
  | v :: arr' => if v =? num then (true, i) else rangeInts num arr' (i + 1)
  end.

Fixpoint rangeValues (needle : value) (arr : list value) (i : Z) : option (bool * Z) :=
  match arr with
  | [] => Some (false, -1)
  | v :: arr' =>
      match interface_eq v needle with
      | None => None
      | Some true => Some (true, i)
      | Some false => rangeValues needle arr' (i + 1)
      end
  end.

(** [InArray(needle, haystack)]; [None] is the run-time panic of an
    interface comparison. *)
Definition InArray (needle haystack : value) : option (bool * Z) :=
  match haystack with
  | VStrings arr =>
      match needle with
      | VString str => Some (rangeStrings str arr 0)
      | _ => Some (false, -1)
      end
  | VInts arr =>
      match needle with
      | VInt num => Some (rangeInts num arr 0)
      | _ => Some (false, -1)
      end
  | VValues arr => rangeValues needle arr 0
  | _ => Some (false, -1)
  end.

(** [Contains(slice, item)]. *)
Fixpoint Contains (slice : list string) (item : string) : bool :=
  match slice with
  | [] => false
  | s :: slice' => if String.eqb s item then true else Contains slice' item
  end.

(** * Arithmetic of the embedding *)

Section Arithmetic.

Lemma wrap_id (z : Z) : GoInt.in_range z -> GoInt.wrap z = z.
Proof.
  unfold GoInt.in_range, GoInt.wrap, GoInt.min_int, GoInt.max_int. intros H.
  rewrite Z.mod_small; lia.
Qed.

Lemma wrap_in_range (z : Z) : GoInt.in_range (GoInt.wrap z).
Proof.
  unfold GoInt.in_range, GoInt.wrap, GoInt.min_int, GoInt.max_int.
  pose proof (Z.mod_pos_bound (z + 2 ^ 63) (2 ^ 64)). lia.
Qed.

Lemma saturate_in_range (z : Z) : GoInt.in_range (saturate z).
Proof.
  unfold saturate, GoInt.in_range.
  destruct (Z.ltb_spec z GoInt.min_int); [unfold GoInt.min_int, GoInt.max_int; lia|].
  destruct (Z.ltb_spec GoInt.max_int z); unfold GoInt.min_int, GoInt.max_int in *; lia.
Qed.

Lemma saturate_id (z : Z) : GoInt.in_range z -> saturate z = z.
Proof.
  unfold saturate, GoInt.in_range. intros H.
  destruct (Z.ltb_spec z GoInt.min_int); [lia|].
  destruct (Z.ltb_spec GoInt.max_int z); lia.
Qed.

Lemma Sub_in_range (t u : Time) : GoInt.in_range (Sub t u).
Proof. apply saturate_in_range. Qed.

(** Between two clock readings the difference never saturates, and it is
    never the most negative duration. *)
Lemma Sub_exact (t u : Time) :
  is_time t -> is_time u -> Sub t u = t - u /\ GoInt.min_int < t - u <= GoInt.max_int.
Proof.
  unfold is_time, Sub. intros Ht Hu.
  assert (GoInt.min_int < t - u <= GoInt.max_int)
    by (unfold GoInt.min_int, GoInt.max_int in *; lia).
  split; [apply saturate_id; unfold GoInt.in_range; lia | done].
Qed.

(** Comparing against a bound below the largest duration is not affected
    by saturation. *)
Lemma saturate_gt (z c : Z) :
  GoInt.min_int <= c < GoInt.max_int -> (c <? saturate z) = (c <? z).
Proof.
  unfold saturate. intros Hc.
  destruct (Z.ltb_spec z GoInt.min_int).
  - destruct (Z.ltb_spec c GoInt.min_int), (Z.ltb_spec c z); lia.
  - destruct (Z.ltb_spec GoInt.max_int z); [|done].
    destruct (Z.ltb_spec c GoInt.max_int), (Z.ltb_spec c z); lia.
Qed.

(** Truncated and floored quotients: they agree when either is positive,
    and the truncated one is never larger in magnitude than the dividend. *)
Lemma quot_vs_div (e d : Z) :
  d <> 0 ->
  (0 <? Z.quot e d) = (0 <? e / d) /\
  (0 < e / d -> Z.quot e d = e / d) /\
  Z.abs (Z.quot e d) <= Z.abs e.
Proof.
  intros Hd.
  assert (Habs : Z.abs (Z.quot e d) <= Z.abs e).
  { rewrite <- Z.quot_abs by done.
    apply Z.quot_le_upper_bound; [lia|].
    assert (0 <= Z.abs e) by lia. nia. }
  assert (Hm : e = d * (e / d) + e mod d) by (apply Z.div_mod; done).
  destruct (Z_lt_le_dec e 0) as [He|He], (Z_lt_le_dec d 0) as [Hd'|Hd'].
  - assert (Heq : Z.quot e d = e / d).
    { rewrite <- (Z.quot_opp_opp e d), <- (Z.div_opp_opp e d) by done.
      apply Z.quot_div_nonneg; lia. }
    rewrite Heq in Habs |- *. repeat split; done.
  - assert (Z.quot e d <= 0).
    { rewrite <- (Z.opp_involutive e), Z.quot_opp_l by done.
      pose proof (Z.quot_pos (- e) d). lia. }
    pose proof (Z.mod_pos_bound e d). assert (e / d < 0) by nia.
    repeat split; [ | lia | done].
    destruct (Z.ltb_spec 0 (Z.quot e d)), (Z.ltb_spec 0 (e / d)); lia.
  - assert (Z.quot e d <= 0).
    { rewrite <- (Z.opp_involutive d), Z.quot_opp_r by lia.
      pose proof (Z.quot_pos e (- d)). lia. }
    pose proof (Z.mod_neg_bound e d). assert (e / d <= 0) by nia.
    repeat split; [ | lia | done].
    destruct (Z.ltb_spec 0 (Z.quot e d)), (Z.ltb_spec 0 (e / d)); lia.
  - assert (Heq : Z.quot e d = e / d) by (apply Z.quot_div_nonneg; lia).
    rewrite Heq in Habs |- *. repeat split; done.
Qed.

(** The quotient Go computes for a duration other than the most negative
    one, against the specification's floor. *)
Lemma quo_floor (e d : Z) :
  GoInt.min_int < e <= GoInt.max_int -> d <> 0 ->
  exists q, GoInt.quo e d = Returned q /\
            GoInt.in_range q /\
            (0 <? q) = (0 <? e / d) /\
            (0 < e / d -> q = e / d).
Proof.
  intros He Hd. unfold GoInt.quo.
  destruct (Z.eqb_spec d 0); [done|].
  destruct (quot_vs_div e d Hd) as (H1 & H2 & H3).
  assert (Hr : GoInt.in_range (Z.quot e d))
    by (unfold GoInt.in_range, GoInt.min_int, GoInt.max_int in *; lia).
  exists (Z.quot e d). rewrite wrap_id by done. done.
Qed.

Lemma quo_zero (e : Z) : GoInt.quo e 0 = Panicked DivideByZero.
Proof. reflexivity. Qed.

Lemma quo_small (e d : Z) : 0 <= e < d -> GoInt.quo e d = Returned 0.
Proof.
  intros H. unfold GoInt.quo. destruct (Z.eqb_spec d 0); [lia|].
  rewrite Z.quot_small by done. reflexivity.
Qed.

End Arithmetic.

(** * The limiter *)

Section Limiter.

Lemma refill_fields (now : Time) (r r' : RateLimiter) :
  refill now r = Returned r' ->
  maxTokens r' = maxTokens r /\ refillRate r' = refillRate r.
Proof.
  unfold refill. destruct (GoInt.quo _ _) as [q|]; [|done]. simpl.
  destruct (0 <? q); intros [= <-]; done.
Qed.

(** On clock readings and a nonzero rate the refill half is the
    specification's, as long as the sum it forms fits an [int]. *)
Lemma refill_spec (now : Time) (r : RateLimiter) :
  wf_limiter r -> is_time now -> refillRate r <> 0 ->
  (0 < (now - lastRefillTime r) / refillRate r ->
   tokens r + (now - lastRefillTime r) / refillRate r <= GoInt.max_int) ->
  refill now r = Returned (spec_refill now r).
Proof.
  intros (Ht & Hm & Hr & Hl) Hnow Hrate Hfit.
  destruct (Sub_exact now (lastRefillTime r) Hnow Hl) as [Hsub Hrange].
  destruct (quo_floor _ (refillRate r) Hrange Hrate) as (q & Hq & Hqr & Hpos & Hval).
  unfold refill, spec_refill. rewrite Hsub, Hq. simpl. rewrite Hpos.
  destruct (Z.ltb_spec 0 ((now - lastRefillTime r) / refillRate r)) as [Hlt|]; [|done].
  rewrite (Hval Hlt). unfold GoInt.add.
  rewrite wrap_id by (unfold GoInt.in_range in *; specialize (Hfit Hlt); lia).
  f_equal. f_equal.
  destruct (Z.ltb_spec (maxTokens r)
              (tokens r + (now - lastRefillTime r) / refillRate r)); lia.
Qed.

Lemma spec_refill_maxTokens (now : Time) (r : RateLimiter) :
  maxTokens (spec_refill now r) = maxTokens r.
Proof. unfold spec_refill. cbv zeta. destruct (0 <? _); done. Qed.

Lemma consume_spec (r : RateLimiter) :
  GoInt.in_range (tokens r) ->
  consume r =
    if 0 <? tokens r then
      ({| tokens := tokens r - 1; maxTokens := maxTokens r;
          refillRate := refillRate r; lastRefillTime := lastRefillTime r |}, true)
    else (r, false).
Proof.
  intros Ht. unfold consume. destruct (Z.ltb_spec 0 (tokens r)); [|done].
  unfold GoInt.sub. rewrite wrap_id; [done|].
  unfold GoInt.in_range, GoInt.min_int in *. lia.
Qed.

Lemma consume_lastRefillTime (r : RateLimiter) :
  lastRefillTime (fst (consume r)) = lastRefillTime r.
Proof. unfold consume. destruct (0 <? tokens r); done. Qed.

(** A zero rate makes [Allow] panic, whatever the rest of the state. *)
Lemma Allow_zero_rate (now : Time) (r : RateLimiter) :
  refillRate r = 0 -> Allow now r = Panicked DivideByZero.
Proof. intros H. unfold Allow, refill. rewrite H, quo_zero. reflexivity. Qed.

(** The state [Allow] leaves is again made of [int]s and a clock reading. *)
Lemma Allow_wf (now : Time) (r r' : RateLimiter) (b : bool) :
  wf_limiter r -> is_time now -> Allow now r = Returned (r', b) -> wf_limiter r'.
Proof.
  intros (Ht & Hm & Hr & Hl) Hnow. unfold Allow, refill.
  destruct (GoInt.quo _ _) as [q|]; [|done]. simpl.
  assert (forall x, GoInt.in_range (GoInt.sub x 1)) by (intros; apply wrap_in_range).
  assert (forall x y, GoInt.in_range (GoInt.add x y)) by (intros; apply wrap_in_range).
  destruct (0 <? q); unfold consume; simpl.
  - destruct (maxTokens r <? _); simpl;
      destruct (0 <? _); intros [= <- <-]; unfold wf_limiter; simpl;
      split_and!; auto.
  - destruct (0 <? tokens r); intros [= <- <-]; unfold wf_limiter; simpl;
      split_and!; auto.
Qed.

(** [Allow] never moves the last refill instant past the call. *)
Lemma Allow_lastRefillTime (now : Time) (r r' : RateLimiter) (b : bool) :
  Allow now r = Returned (r', b) ->
  lastRefillTime r' = now \/ lastRefillTime r' = lastRefillTime r.
Proof.
  unfold Allow, refill. destruct (GoInt.quo _ _) as [q|]; [|done]. simpl.
  destruct (0 <? q); unfold consume; simpl;
    destruct (0 <? _); intros [= <- <-]; simpl; auto.
Qed.

Lemma Allow_fields (now : Time) (r r' : RateLimiter) (b : bool) :
  Allow now r = Returned (r', b) ->
  maxTokens r' = maxTokens r /\ refillRate r' = refillRate r.
Proof.
  unfold Allow. destruct (refill now r) as [r1|] eqn:E; [|done]. simpl.
  apply refill_fields in E. unfold consume.
  destruct (0 <? tokens r1); intros [= <- <-]; done.
Qed.

(** The invariant holds at creation for a capacity that is not negative ... *)
Lemma newLimiter_inv (N : Z) (rate : Duration) (now : Time) :
  0 <= N -> bucket_inv (newLimiter N rate now).
Proof. unfold bucket_inv. simpl. lia. Qed.

(** ... and [Allow] keeps it whenever the sum formed by a refill fits an
    [int]. *)
Lemma Allow_inv (now : Time) (r r' : RateLimiter) (b : bool) :
  wf_limiter r -> is_time now ->
  (0 < (now - lastRefillTime r) / refillRate r ->
   tokens r + (now - lastRefillTime r) / refillRate r <= GoInt.max_int) ->
  bucket_inv r -> Allow now r = Returned (r', b) -> bucket_inv r'.
Proof.
  intros Hwf Hnow Hfit Hinv.
  destruct (Z.eq_dec (refillRate r) 0) as [H0|H0];
    [rewrite Allow_zero_rate by done; done|].
  unfold Allow. rewrite refill_spec by done. simpl.
  assert (Hinv' : bucket_inv (spec_refill now r)).
  { unfold spec_refill, bucket_inv in *. cbv zeta.
    destruct (Z.ltb_spec 0 ((now - lastRefillTime r) / refillRate r)); simpl; [|lia].
    pose proof (Z.min_spec (tokens r + (now - lastRefillTime r) / refillRate r)
                  (maxTokens r)). lia. }
  assert (Hrange : GoInt.in_range (tokens (spec_refill now r))).
  { destruct Hwf as (_ & Hm & _). unfold bucket_inv in Hinv'.
    rewrite spec_refill_maxTokens in Hinv'.
    unfold GoInt.in_range, GoInt.min_int in *. lia. }
  rewrite consume_spec by done. unfold bucket_inv in *.
  destruct (Z.ltb_spec 0 (tokens (spec_refill now r))); intros [= <- <-]; simpl; lia.
Qed.

(** A run of calls none of which sees a whole interval since the last
    refill: tokens are handed out until none is left. *)
Lemma Allows_no_refill (nows : list Time) : forall r : RateLimiter,
  GoInt.in_range (tokens r) ->
  Forall (fun now => 0 <= Sub now (lastRefillTime r) < refillRate r) nows ->
  let k := Nat.min (Z.to_nat (tokens r)) (length nows) in
  Allows nows r =
    Returned ({| tokens := tokens r - Z.of_nat k; maxTokens := maxTokens r;
                 refillRate := refillRate r; lastRefillTime := lastRefillTime r |},
              repeat true k ++ repeat false (length nows - k)).
Proof.
  induction nows as [|now nows IH]; intros r Hr Hall; simpl.
  - rewrite Nat.min_0_r. simpl. rewrite Z.sub_0_r. destruct r; done.
  - apply Forall_cons in Hall as [Hnow Hall].
    unfold Allow, refill. rewrite quo_small by done. simpl.
    rewrite consume_spec by done.
    destruct (Z.ltb_spec 0 (tokens r)) as [Hpos|Hnp]; simpl.
    + rewrite IH; simpl; [| unfold GoInt.in_range, GoInt.min_int in *; lia | done].
      replace (Z.to_nat (tokens r)) with (S (Z.to_nat (tokens r - 1))) by lia.
      simpl. do 3 f_equal. lia.
    + rewrite IH by done. simpl.
      replace (Z.to_nat (tokens r)) with 0%nat by lia. simpl.
      rewrite Nat.sub_0_r, Z.sub_0_r. done.
Qed.

(** A limiter in debt below a negative capacity never answers [true]. *)
Lemma Allow_negative_capacity (now : Time) (r : RateLimiter) :
  GoInt.in_range (tokens r) -> GoInt.in_range (maxTokens r) ->
  tokens r <= maxTokens r -> maxTokens r < 0 -> refillRate r <> 0 ->
  exists r', Allow now r = Returned (r', false) /\
             GoInt.in_range (tokens r') /\ GoInt.in_range (maxTokens r') /\
             tokens r' <= maxTokens r' /\
             maxTokens r' = maxTokens r /\ refillRate r' = refillRate r.
Proof.
  intros Ht Hm Hle Hneg Hrate. unfold Allow, refill, GoInt.quo.
  destruct (Z.eqb_spec (refillRate r) 0); [done|]. simpl.
  set (q := GoInt.wrap _). pose proof (wrap_in_range (Z.quot (Sub now (lastRefillTime r)) (refillRate r))) as Hq.
  fold q in Hq.
  destruct (Z.ltb_spec 0 q) as [Hpos|Hnp]; simpl; unfold consume; simpl.
  - unfold GoInt.add. rewrite wrap_id by (unfold GoInt.in_range in *; lia).
    destruct (Z.ltb_spec (maxTokens r) (tokens r + q)); simpl.
    + destruct (Z.ltb_spec 0 (maxTokens r)); [lia|].
      eexists. split_and!; simpl; done || lia.
    + destruct (Z.ltb_spec 0 (tokens r + q)); [lia|].
      eexists. split_and!; try done; unfold GoInt.in_range in *; simpl; lia.
  - destruct (Z.ltb_spec 0 (tokens r)); [lia|].
    eexists. split_and!; done.
Qed.

Lemma Allows_negative_capacity (nows : list Time) : forall r : RateLimiter,
  GoInt.in_range (tokens r) -> GoInt.in_range (maxTokens r) ->
  tokens r <= maxTokens r -> maxTokens r < 0 -> refillRate r <> 0 ->
  exists r', Allows nows r = Returned (r', repeat false (length nows)).
Proof.
  induction nows as [|now nows IH]; intros r Ht Hm Hle Hneg Hrate; simpl; [eauto|].
  destruct (Allow_negative_capacity now r) as (r1 & -> & Ht1 & Hm1 & Hle1 & Hm1' & Hr1);
    try done.
  simpl. destruct (IH r1) as (r2 & ->); try done; try congruence; try lia.
  simpl. eauto.
Qed.

End Limiter.

(** * The store *)

Section Store.

Lemma GetLimiter_present (clientID : string) (maxTokens : Z) (refillRate : Duration)
    (now : Time) (s : RateLimiterStore) (p : nat) :
  limiters s !! clientID = Some p ->
  GetLimiter clientID maxTokens refillRate now s = (p, s).
Proof. intros H. unfold GetLimiter. rewrite H. done. Qed.

Lemma GetLimiter_absent (clientID : string) (maxTokens : Z) (refillRate : Duration)
    (now : Time) (s : RateLimiterStore) :
  limiters s !! clientID = None ->
  GetLimiter clientID maxTokens refillRate now s =
    (length (cells s),
     {| limiters := <[clientID := length (cells s)]> (limiters s);
        cells := cells s ++ [newLimiter maxTokens refillRate now] |}).
Proof. intros H. unfold GetLimiter. rewrite H. done. Qed.

(** Whatever the key, the pointer returned is registered under it and
    points at an allocated limiter. *)
Lemma GetLimiter_registered (clientID : string) (maxTokens : Z) (refillRate : Duration)
    (now : Time) (s : RateLimiterStore) :
  wf_store s ->
  let ps := GetLimiter clientID maxTokens refillRate now s in
  limiters (snd ps) !! clientID = Some (fst ps) /\
  is_Some (cells (snd ps) !! fst ps) /\
  wf_store (snd ps).
Proof.
  intros Hwf. unfold GetLimiter.
  destruct (limiters s !! clientID) as [p|] eqn:E; simpl.
  - split_and!; [done | apply lookup_lt_is_Some; eauto | done].
  - split_and!.
    + apply lookup_insert_eq.
    + apply lookup_lt_is_Some. rewrite length_app. simpl. lia.
    + intros key p. simpl. rewrite length_app. simpl.
      destruct (decide (clientID = key)) as [->|Hne].
      * rewrite lookup_insert_eq. intros [= <-]. lia.
      * rewrite lookup_insert_ne by done. intros H%Hwf. lia.
Qed.

Lemma Allows_at_cell (nows : list Time) (p : nat) :
  forall (s : RateLimiterStore) (r r' : RateLimiter) (bs : list bool),
    cells s !! p = Some r ->
    Allows nows r = Returned (r', bs) ->
    Allows_at nows p s =
      Returned ({| limiters := limiters s; cells := <[p := r']> (cells s) |}, bs).
Proof.
  induction nows as [|now nows IH]; intros s r r' bs Hp; simpl.
  - intros [= <- <-]. rewrite list_insert_id by done. destruct s; done.
  - unfold Allow_at. rewrite Hp.
    destruct (Allow now r) as [[r1 b1]|]; [|done]. simpl.
    destruct (Allows nows r1) as [[r2 bs2]|] eqn:E; [|done]. simpl.
    intros [= <- <-].
    erewrite IH; [| | exact E]; simpl.
    + rewrite list_insert_insert_eq. done.
    + apply list_lookup_insert_eq. eapply lookup_lt_Some. done.
Qed.

(** Lookups of an unseen key, one after the other: the first allocates,
    all of them return that one pointer, and the store has grown by that
    single limiter. *)
Lemma GetLimiters_unseen_key (clientID : string) (s : RateLimiterStore)
    (maxTokens : Z) (refillRate : Duration) (now : Time)
    (args : list (Z * Duration * Time)) :
  limiters s !! clientID = None ->
  let created := GetLimiters clientID ((maxTokens, refillRate, now) :: args) s in
  fst created = repeat (length (cells s)) (S (length args)) /\
  cells (snd created) = cells s ++ [newLimiter maxTokens refillRate now].
Proof.
  intros Hkey. cbv zeta. simpl. rewrite GetLimiter_absent by done.
  set (s1 := {| limiters := _; cells := _ |}).
  assert (Hs1 : limiters s1 !! clientID = Some (length (cells s)))
    by apply lookup_insert_eq.
  assert (Hmany : forall l, GetLimiters clientID l s1
                            = (repeat (length (cells s)) (length l), s1)).
  { induction l as [|[[m q] t] l IH]; simpl; [done|].
    rewrite (GetLimiter_present _ _ _ _ _ _ Hs1), IH. done. }
  rewrite Hmany. simpl. done.
Qed.

(** What one sweep leaves in the map. *)
Lemma cleanup_tick_lookup (now : Time) (s : RateLimiterStore) (key : string) :
  limiters (cleanup_tick now s) !! key =
    match limiters s !! key with
    | Some p => if inactive now (cells s) p then None else Some p
    | None => None
    end.
Proof.
  unfold cleanup_tick. simpl.
  set (f := fun (key : string) (limiter : nat) (m : gmap string nat) =>
              if inactive now (cells s) limiter then delete key m else m).
  enough (H : forall (b : gmap string nat),
             map_fold f b (limiters s) !! key =
               match limiters s !! key with
               | Some p => if inactive now (cells s) p then None else b !! key
               | None => b !! key
               end).
  { rewrite H. destruct (limiters s !! key) as [p|] eqn:E; [|done].
    destruct (inactive now (cells s) p); done. }
  intros b.
  apply (map_fold_weak_ind
           (fun acc (m : gmap string nat) =>
              acc !! key =
                match m !! key with
                | Some p => if inactive now (cells s) p then None else b !! key
                | None => b !! key
                end)).
  - rewrite lookup_empty. done.
  - intros i x m acc Hi IH. unfold f.
    destruct (decide (i = key)) as [->|Hne].
    + rewrite lookup_insert_eq. rewrite Hi in IH.
      destruct (inactive now (cells s) x); [apply lookup_delete_eq | done].
    + rewrite lookup_insert_ne by done.
      destruct (inactive now (cells s) x); [rewrite lookup_delete_ne by done|]; done.
Qed.

End Store.

(** * Properties of the specification *)

Ltac int_bounds :=
  unfold wf_limiter, GoInt.in_range, is_time, GoInt.min_int, GoInt.max_int,
         newLimiter, Second, Minute, Nanosecond in *;
  simpl in *; lia.

(** ** Refill and consumption (C1) *)

(** C1, with the two provisos the code needs.  For every call to [Allow] at
    the clock reading [now] on a limiter whose refill interval is not zero:
    with [elapsed = now - lastRefillTime] and
    [tokensToAdd = floor (elapsed / refillInterval)], provided that the sum
    [tokens + tokensToAdd] of an actual refill fits an [int], the call
    returns (it does not panic), and what it returns and leaves behind is
    what the specification's rule gives: when [tokensToAdd > 0], tokens
    become [min (tokens + tokensToAdd, maxTokens)] and [lastRefillTime]
    becomes [now]; then a positive balance is decremented and the answer is
    [true], otherwise the answer is [false]. *)
Theorem Allow_refills_then_consumes (r : RateLimiter) (now : Time) :
  wf_limiter r -> is_time now ->
  refillRate r <> 0 ->
  (0 < (now - lastRefillTime r) / refillRate r ->
   tokens r + (now - lastRefillTime r) / refillRate r <= GoInt.max_int) ->
  Allow now r = Returned (spec_Allow now r).
Proof.
  intros Hwf Hnow Hrate Hfit.
  unfold Allow. rewrite refill_spec by done. simpl.
  unfold spec_Allow. cbv zeta. rewrite consume_spec; [done|].
  destruct Hwf as (Ht & Hm & _).
  unfold spec_refill. cbv zeta.
  destruct (Z.ltb_spec 0 ((now - lastRefillTime r) / refillRate r)) as [Hlt|]; [|done].
  simpl. specialize (Hfit Hlt).
  pose proof (Z.min_spec (tokens r + (now - lastRefillTime r) / refillRate r)
                (maxTokens r)).
  unfold GoInt.in_range in *. lia.
Qed.

Lemma Allow_refills_then_consumes_witness :
  Allow (5 + 2 * Second + 7)
        {| tokens := 0; maxTokens := 3; refillRate := Second; lastRefillTime := 5 |}
  = Returned ({| tokens := 1; maxTokens := 3; refillRate := Second;
                 lastRefillTime := 5 + 2 * Second + 7 |}, true).
Proof.
  apply (Allow_refills_then_consumes
           {| tokens := 0; maxTokens := 3; refillRate := Second; lastRefillTime := 5 |}
           (5 + 2 * Second + 7)).
  - int_bounds.
  - int_bounds.
  - vm_compute. discriminate.
  - intros _. vm_compute. discriminate.
Defined.

(** C1 as it is written fails in two ways.  With a zero refill interval the
    call panics on the division instead of answering; and when the sum
    [tokens + tokensToAdd] exceeds the largest [int] the balance wraps to a
    negative number before the cap is applied, so that a full bucket answers
    [false] where the rule of the specification answers [true]. *)
Lemma Allow_departs_from_spec_Allow :
  (let r := {| tokens := 1; maxTokens := 1; refillRate := 0; lastRefillTime := 5 |} in
   wf_limiter r /\ is_time 10 /\
   Allow 10 r = Panicked DivideByZero /\
   spec_Allow 10 r = ({| tokens := 0; maxTokens := 1; refillRate := 0;
                         lastRefillTime := 5 |}, true)) /\
  (let r := newLimiter GoInt.max_int Second 5 in
   wf_limiter r /\ is_time (5 + Second) /\
   Allow (5 + Second) r =
     Returned ({| tokens := GoInt.min_int; maxTokens := GoInt.max_int;
                  refillRate := Second; lastRefillTime := 5 + Second |}, false) /\
   spec_Allow (5 + Second) r =
     ({| tokens := GoInt.max_int - 1; maxTokens := GoInt.max_int;
         refillRate := Second; lastRefillTime := 5 + Second |}, true)).
Proof.
  split; cbv zeta; (split_and!; [int_bounds | int_bounds | reflexivity | reflexivity]).
Qed.

(** ** The balance invariant (C2) *)

(** C2 does not hold of the code.  A limiter created by [GetLimiter] with
    the largest capacity an [int] can hold satisfies [0 <= tokens <=
    maxTokens]; the first completed [Allow] that refills it, one interval
    later, adds to the full balance before capping it, the sum wraps, and
    the call leaves [tokens] at the most negative [int] (and answers
    [false]). *)
Theorem refill_overflow_breaks_bucket_inv :
  let created := GetLimiter "client" GoInt.max_int Second 5 NewRateLimiterStore in
  let fresh := newLimiter GoInt.max_int Second 5 in
  let after := {| tokens := GoInt.min_int; maxTokens := GoInt.max_int;
                  refillRate := Second; lastRefillTime := 5 + Second |} in
  0 <= GoInt.max_int /\
  cells (snd created) !! fst created = Some fresh /\
  bucket_inv fresh /\
  (exists s', Allow_at (5 + Second) (fst created) (snd created) = Returned (s', false) /\
              cells s' !! fst created = Some after) /\
  tokens after < 0 /\
  ~ bucket_inv after.
Proof.
  cbv zeta. split_and!.
  - done.
  - reflexivity.
  - unfold bucket_inv. simpl. done.
  - eexists. split; reflexivity.
  - done.
  - unfold bucket_inv. simpl. intros [H _]. apply H. reflexivity.
Qed.

(** ** A full interval of waiting (C7) *)

(** C7, with the provisos the code needs.  Take a limiter with a positive
    refill interval and a last refill that is not in the future of the first
    call, let a first [Allow] at [now1] leave it in state [r1], and let at
    least one full interval pass before a second call at [now2].  Provided
    the sum formed by the second call's refill fits an [int], the balance
    that call observes after its refill is at least one token above the one
    left by the first call, or at the cap [maxTokens], and never above the
    cap; and if the first call left no debt and the capacity is at least
    one, the second call is allowed. *)
Theorem refill_after_interval (r r1 : RateLimiter) (now1 now2 : Time) (b1 : bool) :
  wf_limiter r -> is_time now1 -> is_time now2 ->
  lastRefillTime r <= now1 ->
  0 < refillRate r ->
  Allow now1 r = Returned (r1, b1) ->
  refillRate r <= now2 - now1 ->
  tokens r1 + (now2 - lastRefillTime r1) / refillRate r <= GoInt.max_int ->
  exists r2,
    refill now2 r1 = Returned r2 /\
    Z.min (tokens r1 + 1) (maxTokens r1) <= tokens r2 <= maxTokens r1 /\
    (0 <= tokens r1 -> 1 <= maxTokens r1 ->
     exists r3, Allow now2 r1 = Returned (r3, true)).
Proof.
  intros Hwf Hnow1 Hnow2 Hlast Hrate Hfirst Hwait Hfit.
  pose proof (Allow_wf _ _ _ _ Hwf Hnow1 Hfirst) as Hwf1.
  destruct (Allow_fields _ _ _ _ Hfirst) as [_ Hrate1].
  assert (Hlast1 : lastRefillTime r1 <= now1)
    by (destruct (Allow_lastRefillTime _ _ _ _ Hfirst); lia).
  assert (Hq : 1 <= (now2 - lastRefillTime r1) / refillRate r)
    by (apply Z.div_le_lower_bound; lia).
  exists (spec_refill now2 r1).
  assert (Hrefill : refill now2 r1 = Returned (spec_refill now2 r1))
    by (apply refill_spec; rewrite ?Hrate1; auto; lia).
  assert (Hbal : Z.min (tokens r1 + 1) (maxTokens r1) <= tokens (spec_refill now2 r1)
                 <= maxTokens r1).
  { unfold spec_refill. cbv zeta. rewrite Hrate1.
    destruct (Z.ltb_spec 0 ((now2 - lastRefillTime r1) / refillRate r)); [|lia].
    simpl.
    pose proof (Z.min_spec (tokens r1 + (now2 - lastRefillTime r1) / refillRate r)
                  (maxTokens r1)).
    pose proof (Z.min_spec (tokens r1 + 1) (maxTokens r1)). lia. }
  split_and!; [done | apply Hbal | apply Hbal |].
  intros Hdebt Hcap. unfold Allow. rewrite Hrefill. simpl. unfold consume.
  pose proof (Z.min_spec (tokens r1 + 1) (maxTokens r1)).
  destruct (Z.ltb_spec 0 (tokens (spec_refill now2 r1))); [eauto | lia].
Qed.

Lemma refill_after_interval_witness :
  exists r2,
    refill (6 + Second)
      {| tokens := 2; maxTokens := 3; refillRate := Second; lastRefillTime := 5 |}
    = Returned r2 /\
    Z.min (2 + 1) 3 <= tokens r2 <= 3 /\
    (0 <= 2 -> 1 <= 3 ->
     exists r3,
       Allow (6 + Second)
         {| tokens := 2; maxTokens := 3; refillRate := Second; lastRefillTime := 5 |}
       = Returned (r3, true)).
Proof.
  apply (refill_after_interval (newLimiter 3 Second 5)
           {| tokens := 2; maxTokens := 3; refillRate := Second; lastRefillTime := 5 |}
           6 (6 + Second) true).
  - int_bounds.
  - int_bounds.
  - int_bounds.
  - simpl. lia.
  - reflexivity.
  - reflexivity.
  - int_bounds.
  - vm_compute. discriminate.
Defined.

(** C7 as it is written fails in two ways.  A limiter configured with a
    negative interval never refills, however long the wait; and with the
    largest capacity, a wait of two intervals makes the refill wrap, so that
    the second call observes the most negative [int] instead of one more
    token. *)
Lemma waiting_an_interval_may_add_nothing :
  (let r := newLimiter 3 (- Second) 5 in
   let r1 := {| tokens := 2; maxTokens := 3; refillRate := - Second;
                lastRefillTime := 5 |} in
   Allow 6 r = Returned (r1, true) /\
   refillRate r <= (6 + 5 * Second) - 6 /\
   refill (6 + 5 * Second) r1 = Returned r1) /\
  (let r := newLimiter GoInt.max_int Second 5 in
   let r1 := {| tokens := GoInt.max_int - 1; maxTokens := GoInt.max_int;
                refillRate := Second; lastRefillTime := 5 |} in
   Allow 6 r = Returned (r1, true) /\
   refillRate r <= (6 + 2 * Second) - 6 /\
   refill (6 + 2 * Second) r1 =
     Returned {| tokens := GoInt.min_int; maxTokens := GoInt.max_int;
                 refillRate := Second; lastRefillTime := 6 + 2 * Second |}).
Proof.
  split; cbv zeta; (split_and!; [reflexivity | int_bounds | reflexivity]).
Qed.

(** ** Sub-interval time is carried forward (C9) *)

(** C9.  For every [Allow] call at a clock reading, on a limiter with a
    nonzero interval: the call returns, and when
    [tokensToAdd = floor (elapsed / refillInterval)] is zero it leaves
    [lastRefillTime] as it was, so the next call measures its elapsed time
    from the same instant; [lastRefillTime] changes only in a call that
    refills at least one whole token, and then it becomes [now]. *)
Theorem Allow_without_refill_keeps_lastRefillTime (r : RateLimiter) (now : Time) :
  wf_limiter r -> is_time now -> refillRate r <> 0 ->
  exists (r' : RateLimiter) (b : bool),
    Allow now r = Returned (r', b) /\
    ((now - lastRefillTime r) / refillRate r = 0 ->
     lastRefillTime r' = lastRefillTime r /\
     forall later : Time, Sub later (lastRefillTime r') = Sub later (lastRefillTime r)) /\
    (lastRefillTime r' <> lastRefillTime r ->
     0 < (now - lastRefillTime r) / refillRate r /\ lastRefillTime r' = now).
Proof.
  intros (Ht & Hm & Hr & Hl) Hnow Hrate.
  destruct (Sub_exact now (lastRefillTime r) Hnow Hl) as [Hsub Hrange].
  destruct (quo_floor _ (refillRate r) Hrange Hrate) as (q & Hq & _ & Hpos & _).
  unfold Allow, refill. rewrite Hsub, Hq. simpl. rewrite Hpos. clear Hpos.
  destruct (Z.ltb_spec 0 ((now - lastRefillTime r) / refillRate r)) as [Hlt|Hle]; simpl;
    match goal with
    | |- exists r' b, Returned (consume ?x) = _ /\ _ =>
        exists (fst (consume x)), (snd (consume x));
        split; [by rewrite <- surjective_pairing|];
        rewrite consume_lastRefillTime; simpl
    end.
  - split; [lia | done].
  - split; [done | lia].
Qed.

Lemma Allow_without_refill_keeps_lastRefillTime_witness :
  exists (r' : RateLimiter) (b : bool),
    Allow 11 {| tokens := 2; maxTokens := 3; refillRate := 10; lastRefillTime := 5 |}
      = Returned (r', b) /\
    ((11 - 5) / 10 = 0 ->
     lastRefillTime r' = 5 /\
     forall later : Time, Sub later (lastRefillTime r') = Sub later 5) /\
    (lastRefillTime r' <> 5 -> 0 < (11 - 5) / 10 /\ lastRefillTime r' = 11).
Proof.
  apply (Allow_without_refill_keeps_lastRefillTime
           {| tokens := 2; maxTokens := 3; refillRate := 10; lastRefillTime := 5 |} 11).
  - int_bounds.
  - int_bounds.
  - simpl. lia.
Defined.

(** Two waits of six nanoseconds against an interval of ten add up to one
    token: the first call refills nothing and keeps the reference instant,
    the second sees twelve nanoseconds. *)
Example partial_intervals_accumulate :
  Allows [6; 12] {| tokens := 0; maxTokens := 3; refillRate := 10; lastRefillTime := 0 |}
  = Returned ({| tokens := 0; maxTokens := 3; refillRate := 10; lastRefillTime := 12 |},
              [false; true]).
Proof. reflexivity. Qed.

(** ** A burst on a fresh key (C4) *)

(** C4.  For every capacity [N >= 1]: on the limiter [GetLimiter] creates
    for an unseen key at [t0], a sequence of [N + 1] calls to [Allow] during
    which no full interval elapses since creation ([0 <= elapsed <
    refillInterval] at each call) returns [true] exactly for the first [N]
    calls and [false] for the last one. *)
Theorem fresh_key_admits_exactly_capacity (s : RateLimiterStore) (key : string)
    (N : Z) (rate : Duration) (t0 : Time) (nows : list Time) :
  limiters s !! key = None ->
  1 <= N <= GoInt.max_int ->
  length nows = S (Z.to_nat N) ->
  Forall (fun now => 0 <= Sub now t0 < rate) nows ->
  exists s',
    Allows_at nows (fst (GetLimiter key N rate t0 s)) (snd (GetLimiter key N rate t0 s))
    = Returned (s', repeat true (Z.to_nat N) ++ [false]).
Proof.
  intros Hkey HN Hlen Hall.
  rewrite GetLimiter_absent by done. simpl.
  eexists. eapply Allows_at_cell; simpl.
  - apply list_lookup_middle. reflexivity.
  - rewrite Allows_no_refill; simpl.
    + rewrite Hlen. rewrite Nat.min_l by lia.
      replace (S (Z.to_nat N) - Z.to_nat N)%nat with 1%nat by lia. reflexivity.
    + unfold GoInt.in_range, GoInt.min_int. lia.
    + done.
Qed.

Lemma fresh_key_admits_exactly_capacity_witness :
  exists s',
    Allows_at [5; 6; 7; 8]
      (fst (GetLimiter "A" 3 Second 5 NewRateLimiterStore))
      (snd (GetLimiter "A" 3 Second 5 NewRateLimiterStore))
    = Returned (s', repeat true (Z.to_nat 3) ++ [false]).
Proof.
  apply (fresh_key_admits_exactly_capacity NewRateLimiterStore "A" 3 Second 5 [5; 6; 7; 8]).
  - reflexivity.
  - int_bounds.
  - reflexivity.
  - repeat constructor; vm_compute; discriminate.
Defined.

(** The scenario of the specification: three requests per three seconds,
    four immediate calls, then one more after 1.1 seconds. *)
Example scenario_3_per_3s :
  Allows [5; 6; 7; 8; 8 + 1100000000] (newLimiter 3 (3 * Second / 3) 5)
  = Returned ({| tokens := 0; maxTokens := 3; refillRate := Second;
                 lastRefillTime := 8 + 1100000000 |},
              [true; true; true; false; true]).
Proof. reflexivity. Qed.

(** Exhausting the limiter of key "A" leaves the one of key "B" full. *)
Example scenario_two_keys :
  let sA := GetLimiter "A" 1 Second 5 NewRateLimiterStore in
  let sB := GetLimiter "B" 1 Second 5 (snd sA) in
  exists s1 s2,
    Allows_at [6; 7] (fst sA) (snd sB) = Returned (s1, [true; false]) /\
    Allows_at [8] (fst sB) s1 = Returned (s2, [true]).
Proof. cbv zeta. eexists _, _. split; reflexivity. Qed.

(** ** Eviction (C5) *)

(** C5.  For every registry entry, one sweep of the cleanup at the reading
    [now] removes the entry exactly when [now - lastRefillTime] exceeds 30
    minutes (and otherwise keeps it, pointing at the same limiter); and
    [GetLimiter], called for a key the sweep has removed, registers a newly
    allocated limiter whose tokens equal its [maxTokens]. *)
Theorem cleanup_tick_evicts_idle (s : RateLimiterStore) (key : string) (p : nat)
    (r : RateLimiter) (now : Time) :
  limiters s !! key = Some p ->
  cells s !! p = Some r ->
  limiters (cleanup_tick now s) !! key =
    (if 30 * Minute <? now - lastRefillTime r then None else Some p) /\
  (30 * Minute < now - lastRefillTime r ->
   forall (maxTokens : Z) (refillRate : Duration) (now' : Time),
     let created := GetLimiter key maxTokens refillRate now' (cleanup_tick now s) in
     fst created = length (cells s) /\
     fst created <> p /\
     limiters (snd created) !! key = Some (fst created) /\
     cells (snd created) !! fst created = Some (newLimiter maxTokens refillRate now') /\
     tokens (newLimiter maxTokens refillRate now') = maxTokens /\
     cells (snd created) !! p = Some r).
Proof.
  intros Hkey Hp.
  assert (Hlook : limiters (cleanup_tick now s) !! key =
                  if 30 * Minute <? now - lastRefillTime r then None else Some p).
  { rewrite cleanup_tick_lookup, Hkey. unfold inactive. rewrite Hp.
    unfold Sub. rewrite saturate_gt; [done|].
    unfold GoInt.min_int, GoInt.max_int, Minute, Second, Nanosecond. lia. }
  split; [done|].
  intros Hidle maxTokens refillRate now'. cbv zeta.
  destruct (Z.ltb_spec (30 * Minute) (now - lastRefillTime r)); [|lia].
  rewrite GetLimiter_absent by done. simpl.
  pose proof (lookup_lt_Some _ _ _ Hp) as Hlt.
  split_and!.
  - done.
  - lia.
  - apply lookup_insert_eq.
  - apply list_lookup_middle. reflexivity.
  - done.
  - rewrite lookup_app_l by done. done.
Qed.

Lemma cleanup_tick_evicts_idle_witness :
  let s := snd (GetLimiter "A" 3 Second 5 NewRateLimiterStore) in
  let now := 5 + 30 * Minute + 1 in
  limiters (cleanup_tick now s) !! "A" =
    (if 30 * Minute <? now - 5 then None else Some 0%nat) /\
  (30 * Minute < now - 5 ->
   forall (maxTokens : Z) (refillRate : Duration) (now' : Time),
     let created := GetLimiter "A" maxTokens refillRate now' (cleanup_tick now s) in
     fst created = length (cells s) /\
     fst created <> 0%nat /\
     limiters (snd created) !! "A" = Some (fst created) /\
     cells (snd created) !! fst created = Some (newLimiter maxTokens refillRate now') /\
     tokens (newLimiter maxTokens refillRate now') = maxTokens /\
     cells (snd created) !! 0%nat = Some (newLimiter 3 Second 5)).
Proof.
  apply (cleanup_tick_evicts_idle
           (snd (GetLimiter "A" 3 Second 5 NewRateLimiterStore)) "A" 0
           (newLimiter 3 Second 5) (5 + 30 * Minute + 1)).
  - reflexivity.
  - reflexivity.
Defined.

(** A limiter whose last refill is exactly 30 minutes old survives the
    sweep; one nanosecond more and it is gone. *)
Example cleanup_tick_threshold :
  let s := snd (GetLimiter "A" 3 Second 5 NewRateLimiterStore) in
  limiters (cleanup_tick (5 + 30 * Minute) s) !! "A" = Some 0%nat /\
  limiters (cleanup_tick (5 + 30 * Minute + 1) s) !! "A" = None.
Proof. split; vm_compute; reflexivity. Qed.

(** ** Lookups of a known key (C10) *)

(** C10.  For every key already in the registry, [GetLimiter] returns the
    stored pointer and leaves the store, hence the limiter's state and
    configuration, exactly as they were, whatever [maxTokens] and
    [refillRate] the call passes; and so does any run of further lookups
    with other arguments: each returns the same pointer, and the limiter's
    capacity and refill rate stay the ones of its creation. *)
Theorem GetLimiter_known_key_ignores_arguments (s : RateLimiterStore)
    (clientID : string) (p : nat) :
  limiters s !! clientID = Some p ->
  (forall (maxTokens : Z) (refillRate : Duration) (now : Time),
     GetLimiter clientID maxTokens refillRate now s = (p, s)) /\
  (forall args : list (Z * Duration * Time),
     GetLimiters clientID args s = (repeat p (length args), s)) /\
  (forall (args : list (Z * Duration * Time)) (r : RateLimiter),
     cells s !! p = Some r ->
     cells (snd (GetLimiters clientID args s)) !! p = Some r).
Proof.
  intros Hkey.
  assert (Hone : forall maxTokens refillRate now,
             GetLimiter clientID maxTokens refillRate now s = (p, s))
    by (intros; by apply GetLimiter_present).
  assert (Hmany : forall args, GetLimiters clientID args s = (repeat p (length args), s)).
  { induction args as [|[[maxTokens refillRate] now] args IH]; simpl; [done|].
    rewrite Hone, IH. done. }
  split_and!; [done | done |].
  intros args r Hr. rewrite Hmany. done.
Qed.

Lemma GetLimiter_known_key_ignores_arguments_witness :
  let s := snd (GetLimiter "A" 3 Second 5 NewRateLimiterStore) in
  (forall (maxTokens : Z) (refillRate : Duration) (now : Time),
     GetLimiter "A" maxTokens refillRate now s = (0%nat, s)) /\
  (forall args : list (Z * Duration * Time),
     GetLimiters "A" args s = (repeat 0%nat (length args), s)) /\
  (forall (args : list (Z * Duration * Time)) (r : RateLimiter),
     cells s !! 0%nat = Some r ->
     cells (snd (GetLimiters "A" args s)) !! 0%nat = Some r).
Proof.
  apply (GetLimiter_known_key_ignores_arguments
           (snd (GetLimiter "A" 3 Second 5 NewRateLimiterStore)) "A" 0).
  reflexivity.
Defined.

Example GetLimiter_second_call_keeps_first_settings :
  let s := snd (GetLimiter "A" 3 Second 5 NewRateLimiterStore) in
  GetLimiter "A" 1000 Minute 99 s = (0%nat, s) /\
  cells s !! 0%nat = Some (newLimiter 3 Second 5).
Proof. split; reflexivity. Qed.

(** ** The throttling response (C6) *)

Ltac throttle_cases :=
  match goal with
  | H : Allow_at _ (fst ?g) (snd ?g) = Returned (_, ?b) |- _ =>
      destruct g as [limiter store]; simpl in H; rewrite H; simpl;
      destruct b; reflexivity
  end.

(** C6.  Each of the four middlewares, once constructed, handles every
    request as follows: when the [Allow] call on the limiter of the derived
    client key returns [false], the handler answers with status 429 and the
    body [{success: false, error: {code: "RATE_LIMIT_EXCEEDED", message}}]
    (the message being the variant's text) and aborts the chain, without
    running the next stage; when the call returns [true], it passes control
    to the next stage. *)
Theorem middlewares_reject_with_429_or_pass_on (maxRequests : Z) (window refillRate : Duration) :
  GoInt.quo window maxRequests = Returned refillRate ->
  (exists h, RateLimitMiddleware maxRequests window = Returned (NewRateLimiterStore, h) /\
             throttles h maxRequests refillRate key_by_identity
               "Too many requests. Please try again later.") /\
  (exists h, IPRateLimitMiddleware maxRequests window = Returned (NewRateLimiterStore, h) /\
             throttles h maxRequests refillRate key_by_address
               "Too many requests from this IP. Please try again later.") /\
  (exists h, APIKeyRateLimitMiddleware maxRequests window = Returned (NewRateLimiterStore, h) /\
             throttles h maxRequests refillRate key_by_header
               "API rate limit exceeded. Please try again later.") /\
  (forall getClientID : Context -> string,
   exists h, CustomRateLimitMiddleware maxRequests window getClientID
               = Returned (NewRateLimiterStore, h) /\
             throttles h maxRequests refillRate (key_by_function getClientID)
               "Rate limit exceeded. Please try again later.").
Proof.
  intros Hq. split_and!; [| | | intros getClientID].
  - unfold RateLimitMiddleware. rewrite Hq. simpl. eexists. split; [reflexivity|].
    intros next nowG nowA s s' c key b Hkey HAllow.
    unfold key_by_identity in Hkey. unfold Get, ContextKeyUserID.
    destruct (Keys c !! "user_id") as [[userID|u|x]|]; try done;
      injection Hkey as ->; simpl; throttle_cases.
  - unfold IPRateLimitMiddleware. rewrite Hq. simpl. eexists. split; [reflexivity|].
    intros next nowG nowA s s' c key b Hkey HAllow.
    injection Hkey as <-. throttle_cases.
  - unfold APIKeyRateLimitMiddleware. rewrite Hq. simpl. eexists. split; [reflexivity|].
    intros next nowG nowA s s' c key b Hkey HAllow.
    unfold key_by_header in Hkey. unfold GetHeader.
    destruct (Header c !! "API-Key") as [[|a k]|]; injection Hkey as <-; simpl;
      throttle_cases.
  - unfold CustomRateLimitMiddleware. rewrite Hq. simpl. eexists. split; [reflexivity|].
    intros next nowG nowA s s' c key b Hkey HAllow.
    unfold key_by_function in Hkey.
    destruct (getClientID c) as [|a k]; injection Hkey as <-; simpl; throttle_cases.
Qed.

Lemma middlewares_reject_with_429_or_pass_on_witness :
  (exists h, RateLimitMiddleware 3 (3 * Second) = Returned (NewRateLimiterStore, h) /\
             throttles h 3 Second key_by_identity
               "Too many requests. Please try again later.") /\
  (exists h, IPRateLimitMiddleware 3 (3 * Second) = Returned (NewRateLimiterStore, h) /\
             throttles h 3 Second key_by_address
               "Too many requests from this IP. Please try again later.") /\
  (exists h, APIKeyRateLimitMiddleware 3 (3 * Second) = Returned (NewRateLimiterStore, h) /\
             throttles h 3 Second key_by_header
               "API rate limit exceeded. Please try again later.") /\
  (forall getClientID : Context -> string,
   exists h, CustomRateLimitMiddleware 3 (3 * Second) getClientID
               = Returned (NewRateLimiterStore, h) /\
             throttles h 3 Second (key_by_function getClientID)
               "Rate limit exceeded. Please try again later.").
Proof.
  apply (middlewares_reject_with_429_or_pass_on 3 (3 * Second) Second).
  reflexivity.
Defined.

(** The second request of a client allowed one request per second, sent
    within the same second: 429, the structured body, the chain aborted. *)
Example second_request_is_rejected :
  let c := {| ClientIP := "10.0.0.7"; Keys := ∅; Header := ∅;
              Written := None; Aborted := false |} in
  let next := fun c : Context => c in
  exists h s1 s2,
    RateLimitMiddleware 1 Second = Returned (NewRateLimiterStore, h) /\
    h next 10 11 NewRateLimiterStore c = Returned (s1, c) /\
    h next 12 13 s1 c =
      Returned (s2,
        {| ClientIP := "10.0.0.7"; Keys := ∅; Header := ∅;
           Written := Some (429,
             {| Success := false; Data := None;
                Error := Some {| Code := "RATE_LIMIT_EXCEEDED";
                                 Message := "Too many requests. Please try again later.";
                                 Details := EmptyString |} |});
           Aborted := true |}).
Proof. cbv zeta. eexists _, _, _. split_and!; reflexivity. Qed.

(** ** Configurations that should have been rejected (C3) *)

(** C3 as amended.  The constructors do not validate [maxRequests].  With
    [maxRequests = 0] construction of each of the four middlewares fails on
    the spot, with the division by zero of [window / maxRequests].  With
    [maxRequests < 0] construction of each of them succeeds; and when the
    refill interval it derives is not zero, every later [Allow] call on a
    limiter created from that configuration returns [false], without a
    run-time error. *)
Theorem nonpositive_maxRequests_is_not_validated (maxRequests : Z) (window : Duration) :
  GoInt.in_range maxRequests -> maxRequests <= 0 ->
  (maxRequests = 0 ->
   RateLimitMiddleware maxRequests window = Panicked DivideByZero /\
   IPRateLimitMiddleware maxRequests window = Panicked DivideByZero /\
   APIKeyRateLimitMiddleware maxRequests window = Panicked DivideByZero /\
   forall getClientID,
     CustomRateLimitMiddleware maxRequests window getClientID = Panicked DivideByZero) /\
  (maxRequests < 0 ->
   exists refillRate : Duration,
     GoInt.quo window maxRequests = Returned refillRate /\
     (exists h, RateLimitMiddleware maxRequests window
                  = Returned (NewRateLimiterStore, h)) /\
     (exists h, IPRateLimitMiddleware maxRequests window
                  = Returned (NewRateLimiterStore, h)) /\
     (exists h, APIKeyRateLimitMiddleware maxRequests window
                  = Returned (NewRateLimiterStore, h)) /\
     (forall getClientID,
      exists h, CustomRateLimitMiddleware maxRequests window getClientID
                  = Returned (NewRateLimiterStore, h)) /\
     (refillRate <> 0 ->
      forall (s : RateLimiterStore) (key : string) (t0 : Time) (nows : list Time),
        limiters s !! key = None ->
        exists s',
          Allows_at nows (fst (GetLimiter key maxRequests refillRate t0 s))
                         (snd (GetLimiter key maxRequests refillRate t0 s))
          = Returned (s', repeat false (length nows)))).
Proof.
  intros Hrange Hle. split.
  - intros ->. unfold RateLimitMiddleware, IPRateLimitMiddleware,
      APIKeyRateLimitMiddleware, CustomRateLimitMiddleware.
    rewrite quo_zero. done.
  - intros Hneg.
    assert (Hq : GoInt.quo window maxRequests
                 = Returned (GoInt.wrap (Z.quot window maxRequests))).
    { unfold GoInt.quo. destruct (Z.eqb_spec maxRequests 0); [lia | done]. }
    exists (GoInt.wrap (Z.quot window maxRequests)).
    unfold RateLimitMiddleware, IPRateLimitMiddleware,
      APIKeyRateLimitMiddleware, CustomRateLimitMiddleware.
    rewrite Hq. simpl. split_and!; eauto.
    intros Hrate s key t0 nows Hkey.
    rewrite GetLimiter_absent by done. simpl.
    destruct (Allows_negative_capacity nows
                (newLimiter maxRequests (GoInt.wrap (Z.quot window maxRequests)) t0))
      as (r' & Hr'); simpl; try done; try lia.
    eexists. eapply Allows_at_cell; [|exact Hr']. simpl.
    apply list_lookup_middle. reflexivity.
Qed.

Lemma nonpositive_maxRequests_is_not_validated_witness :
  (-3 = 0 ->
   RateLimitMiddleware (-3) (3 * Second) = Panicked DivideByZero /\
   IPRateLimitMiddleware (-3) (3 * Second) = Panicked DivideByZero /\
   APIKeyRateLimitMiddleware (-3) (3 * Second) = Panicked DivideByZero /\
   forall getClientID,
     CustomRateLimitMiddleware (-3) (3 * Second) getClientID = Panicked DivideByZero) /\
  (-3 < 0 ->
   exists refillRate : Duration,
     GoInt.quo (3 * Second) (-3) = Returned refillRate /\
     (exists h, RateLimitMiddleware (-3) (3 * Second)
                  = Returned (NewRateLimiterStore, h)) /\
     (exists h, IPRateLimitMiddleware (-3) (3 * Second)
                  = Returned (NewRateLimiterStore, h)) /\
     (exists h, APIKeyRateLimitMiddleware (-3) (3 * Second)
                  = Returned (NewRateLimiterStore, h)) /\
     (forall getClientID,
      exists h, CustomRateLimitMiddleware (-3) (3 * Second) getClientID
                  = Returned (NewRateLimiterStore, h)) /\
     (refillRate <> 0 ->
      forall (s : RateLimiterStore) (key : string) (t0 : Time) (nows : list Time),
        limiters s !! key = None ->
        exists s',
          Allows_at nows (fst (GetLimiter key (-3) refillRate t0 s))
                         (snd (GetLimiter key (-3) refillRate t0 s))
          = Returned (s', repeat false (length nows)))).
Proof.
  apply (nonpositive_maxRequests_is_not_validated (-3) (3 * Second)).
  - int_bounds.
  - lia.
Defined.

(** C3 as it is written fails: two requests per nanosecond "backwards" is
    a configuration with a non-positive [maxRequests] that construction
    accepts, the interval it derives is zero, and the first request handled
    panics in [Allow] with a division by zero. *)
Lemma negative_maxRequests_accepted_then_panics :
  let c := {| ClientIP := "10.0.0.7"; Keys := ∅; Header := ∅;
              Written := None; Aborted := false |} in
  -2 <= 0 /\
  exists h,
    RateLimitMiddleware (-2) Nanosecond = Returned (NewRateLimiterStore, h) /\
    h (fun c => c) 10 11 NewRateLimiterStore c = Panicked DivideByZero.
Proof. cbv zeta. split; [lia|]. eexists. split; reflexivity. Qed.


(** * Further properties of the limiter *)

Section LimiterExtras.

Lemma wrap_add_le (a b : Z) :
  GoInt.in_range a -> 0 < b <= GoInt.max_int -> GoInt.add a b <= a + b.
Proof.
  unfold GoInt.in_range, GoInt.add, GoInt.wrap, GoInt.min_int, GoInt.max_int.
  intros Ha Hb.
  destruct (Z_le_gt_dec (a + b) (2 ^ 63 - 1)).
  - rewrite Z.mod_small by lia. lia.
  - replace (a + b + 2 ^ 63) with ((a + b - 2 ^ 63) + 1 * 2 ^ 64) by lia.
    rewrite Z.mod_add by lia. rewrite Z.mod_small by lia. lia.
Qed.

(** Floors of quotients add up to at most the floor of the sum. *)
Lemma div_add_le (a b d : Z) : 0 < d -> a / d + b / d <= (a + b) / d.
Proof.
  intros Hd. apply Z.div_le_lower_bound; [done|].
  pose proof (Z.mul_div_le a d Hd). pose proof (Z.mul_div_le b d Hd). lia.
Qed.

Lemma admitted_cons (b : bool) (bs : list bool) :
  admitted (b :: bs) = (if b then 1 else 0) + admitted bs.
Proof. unfold admitted. simpl. destruct b; simpl; lia. Qed.

Lemma refill_accounting (now : Time) (r r1 : RateLimiter) :
  wf_limiter r -> is_time now -> 0 < refillRate r ->
  refill now r = Returned r1 ->
  Z.max (tokens r1) 0
    <= Z.max (tokens r) 0 + (lastRefillTime r1 - lastRefillTime r) / refillRate r /\
  lastRefillTime r <= lastRefillTime r1 /\
  (lastRefillTime r1 = lastRefillTime r \/ lastRefillTime r1 = now) /\
  GoInt.in_range (tokens r1).
Proof.
  intros (Ht & Hm & Hr & Hl) Hnow Hrate.
  destruct (Sub_exact now (lastRefillTime r) Hnow Hl) as [Hsub Hrange].
  destruct (quo_floor _ (refillRate r) Hrange ltac:(lia)) as (q & Hq & Hqr & Hpos & Hval).
  unfold refill. rewrite Hsub, Hq. simpl. rewrite Hpos.
  destruct (Z.ltb_spec 0 ((now - lastRefillTime r) / refillRate r)) as [Hlt|Hle].
  - rewrite (Hval Hlt) in *. set (q' := (now - lastRefillTime r) / refillRate r) in *.
    pose proof (wrap_add_le (tokens r) q' Ht ltac:(unfold GoInt.in_range in Hqr; lia)) as Hw.
    assert (Hnowlast : lastRefillTime r < now).
    { destruct (Z_lt_le_dec (lastRefillTime r) now); [done|].
      assert (q' <= 0); [|lia]. unfold q'.
      apply Z.div_le_upper_bound; lia. }
    pose proof (wrap_in_range (tokens r + q')) as Hwr. fold (GoInt.add (tokens r) q') in Hwr.
    set (t := GoInt.add (tokens r) q') in *.
    destruct (Z.ltb_spec (maxTokens r) t); intros [= <-]; simpl; fold q';
      split_and!; try done; try lia; auto.
  - intros [= <-]. rewrite Z.sub_diag, Z.div_0_l by lia. split_and!; try done; try lia; auto.
Qed.

Lemma consume_accounting (r r' : RateLimiter) (b : bool) :
  GoInt.in_range (tokens r) -> consume r = (r', b) ->
  (if b then 1 else 0) + Z.max (tokens r') 0 = Z.max (tokens r) 0 /\
  lastRefillTime r' = lastRefillTime r.
Proof.
  intros Ht. rewrite consume_spec by done.
  destruct (Z.ltb_spec 0 (tokens r)); intros [= <- <-]; simpl; lia.
Qed.

(** One call: what it hands out is paid for by the balance or by the
    interval(s) it has just accounted for. *)
Lemma Allow_accounting (now : Time) (r r' : RateLimiter) (b : bool) :
  wf_limiter r -> is_time now -> 0 < refillRate r ->
  Allow now r = Returned (r', b) ->
  (if b then 1 else 0) + Z.max (tokens r') 0
    <= Z.max (tokens r) 0 + (lastRefillTime r' - lastRefillTime r) / refillRate r /\
  lastRefillTime r <= lastRefillTime r' /\
  (lastRefillTime r' = lastRefillTime r \/ lastRefillTime r' = now).
Proof.
  intros Hwf Hnow Hrate. unfold Allow.
  destruct (refill now r) as [r1|] eqn:E; [|done]. simpl. intros [= Hc].
  destruct (refill_accounting _ _ _ Hwf Hnow Hrate E) as (H1 & H2 & H3 & H4).
  destruct (consume_accounting _ _ _ H4 Hc) as [H5 H6].
  rewrite H6. split_and!; [lia | done | done].
Qed.

End LimiterExtras.

(** X1.  The guarantee a token bucket exists for.  In any completed run of
    [Allow] calls at clock readings, on a limiter with a positive interval,
    the number of calls allowed, plus whatever positive balance is left, is
    at most the positive part of the initial balance plus one token per
    whole interval between the first and the last refill instant; so, up to
    any time [T], at most [max (tokens, 0) + floor ((T - lastRefillTime) /
    refillRate)] calls are allowed.  This holds whatever the capacity, also
    when the refill addition wraps. *)
Theorem admitted_at_most (r r' : RateLimiter) (nows : list Time) (bs : list bool) :
  wf_limiter r -> Forall is_time nows -> 0 < refillRate r ->
  Allows nows r = Returned (r', bs) ->
  admitted bs + Z.max (tokens r') 0
    <= Z.max (tokens r) 0 + (lastRefillTime r' - lastRefillTime r) / refillRate r /\
  forall T : Time,
    lastRefillTime r <= T -> Forall (fun now => now <= T) nows ->
    admitted bs <= Z.max (tokens r) 0 + (T - lastRefillTime r) / refillRate r.
Proof.
  intros Hwf Hnows Hrate Hrun.
  enough (H : admitted bs + Z.max (tokens r') 0
              <= Z.max (tokens r) 0
                 + (lastRefillTime r' - lastRefillTime r) / refillRate r /\
              lastRefillTime r <= lastRefillTime r' /\
              forall T, lastRefillTime r <= T -> Forall (fun now => now <= T) nows ->
                        lastRefillTime r' <= T).
  { destruct H as (Hsum & Hmono & Hlast). split; [done|].
    intros T HT Hall. specialize (Hlast T HT Hall).
    assert ((lastRefillTime r' - lastRefillTime r) / refillRate r
            <= (T - lastRefillTime r) / refillRate r)
      by (apply Z.div_le_mono; lia).
    lia. }
  revert r r' bs Hwf Hrate Hrun.
  induction Hnows as [|now nows Hnow Hnows IH]; intros r r' bs Hwf Hrate; simpl.
  - intros [= <- <-]. rewrite Z.sub_diag, Z.div_0_l by lia.
    unfold admitted. simpl. split_and!; [lia | lia | done].
  - destruct (Allow now r) as [[r1 b1]|] eqn:E1; [|done]. simpl.
    destruct (Allows nows r1) as [[r2 bs2]|] eqn:E2; [|done]. simpl.
    intros [= <- <-].
    destruct (Allow_accounting _ _ _ _ Hwf Hnow Hrate E1) as (Hacc & Hmono1 & Hwhere).
    destruct (Allow_fields _ _ _ _ E1) as [_ Hr1].
    pose proof (Allow_wf _ _ _ _ Hwf Hnow E1) as Hwf1.
    destruct (IH r1 r2 bs2 Hwf1 ltac:(lia) E2) as (HaccIH & Hmono2 & HlastIH).
    rewrite Hr1 in HaccIH. rewrite admitted_cons.
    pose proof (div_add_le (lastRefillTime r1 - lastRefillTime r)
                  (lastRefillTime r2 - lastRefillTime r1) (refillRate r) Hrate) as Hadd.
    replace (lastRefillTime r1 - lastRefillTime r + (lastRefillTime r2 - lastRefillTime r1))
      with (lastRefillTime r2 - lastRefillTime r) in Hadd by lia.
    split_and!; [lia | lia |].
    intros T HT Hall. apply Forall_cons in Hall as [HnowT Hall].
    apply HlastIH; [lia | done].
Qed.

Lemma admitted_at_most_witness :
  admitted [true; true; true; false; true] + Z.max 0 0
    <= Z.max 3 0 + (8 + 1100000000 - 5) / Second /\
  forall T : Time,
    5 <= T -> Forall (fun now => now <= T) [5; 6; 7; 8; 8 + 1100000000] ->
    admitted [true; true; true; false; true] <= Z.max 3 0 + (T - 5) / Second.
Proof.
  apply (admitted_at_most (newLimiter 3 Second 5)
           {| tokens := 0; maxTokens := 3; refillRate := Second;
              lastRefillTime := 8 + 1100000000 |}
           [5; 6; 7; 8; 8 + 1100000000] [true; true; true; false; true]).
  - int_bounds.
  - repeat constructor; int_bounds.
  - reflexivity.
  - reflexivity.
Defined.

(** X2.  What a completed [Allow] can never do, whatever the clock and
    whatever the capacity: it never changes [maxTokens] or [refillRate]; it
    never lifts the balance above [maxTokens] (the upper half of the
    invariant survives even the wrap-around that breaks the lower half); an
    allowed call leaves a balance that is not negative, and a refused call
    means none was left. *)
Theorem Allow_never_exceeds_cap (now : Time) (r r' : RateLimiter) (b : bool) :
  GoInt.in_range (tokens r) -> GoInt.in_range (maxTokens r) ->
  Allow now r = Returned (r', b) ->
  maxTokens r' = maxTokens r /\ refillRate r' = refillRate r /\
  (tokens r <= maxTokens r -> tokens r' <= maxTokens r') /\
  (b = true -> 0 <= tokens r') /\
  (b = false -> tokens r' <= 0).
Proof.
  intros Ht Hm HAllow.
  destruct (Allow_fields _ _ _ _ HAllow) as [Hm' Hr']. rewrite Hm'.
  split_and!; [done | done | ..]; revert HAllow; unfold Allow;
    destruct (refill now r) as [r1|] eqn:E; try done; simpl.
  all: assert (Hr1 : GoInt.in_range (tokens r1) /\ (tokens r <= maxTokens r -> tokens r1 <= maxTokens r)).
  all: try (revert E; unfold refill; destruct (GoInt.quo _ _) as [q|]; [|done]; simpl;
            destruct (0 <? q); [|intros [= <-]; done];
            pose proof (wrap_in_range (tokens r + q)) as Hw;
            fold (GoInt.add (tokens r) q) in Hw;
            destruct (Z.ltb_spec (maxTokens r) (GoInt.add (tokens r) q));
            intros [= <-]; simpl; split; (done || lia)).
  all: destruct Hr1 as [Hr1 Hcap]; rewrite consume_spec by done.
  - destruct (Z.ltb_spec 0 (tokens r1)); intros [= <- <-] Hle; simpl; specialize (Hcap Hle); lia.
  - destruct (Z.ltb_spec 0 (tokens r1)); intros [= <- <-]; simpl; [lia | done].
  - destruct (Z.ltb_spec 0 (tokens r1)); intros [= <- <-]; simpl; [done | lia].
Qed.

Lemma Allow_never_exceeds_cap_witness :
  let r' := {| tokens := GoInt.min_int; maxTokens := GoInt.max_int;
               refillRate := Second; lastRefillTime := 5 + Second |} in
  maxTokens r' = GoInt.max_int /\ refillRate r' = Second /\
  (GoInt.max_int <= GoInt.max_int -> tokens r' <= maxTokens r') /\
  (false = true -> 0 <= tokens r') /\
  (false = false -> tokens r' <= 0).
Proof.
  apply (Allow_never_exceeds_cap (5 + Second) (newLimiter GoInt.max_int Second 5)
           {| tokens := GoInt.min_int; maxTokens := GoInt.max_int;
              refillRate := Second; lastRefillTime := 5 + Second |} false).
  - int_bounds.
  - int_bounds.
  - reflexivity.
Defined.

(** X3.  The only way [Allow] can fail is the division: it panics, with an
    integer division by zero, exactly on a limiter whose [refillRate] is
    zero, at every clock reading and in every state; with any other rate it
    returns, and so does every run of calls, with one answer per call. *)
Theorem Allow_panics_exactly_on_zero_rate (now : Time) (r : RateLimiter) :
  (forall p, Allow now r = Panicked p <-> refillRate r = 0 /\ p = DivideByZero) /\
  (refillRate r <> 0 ->
   forall nows : list Time,
     exists r' bs, Allows nows r = Returned (r', bs) /\
                   length bs = length nows /\ refillRate r' = refillRate r).
Proof.
  split.
  - intros p. split.
    + unfold Allow, refill, GoInt.quo.
      destruct (Z.eqb_spec (refillRate r) 0); simpl; [intros [= <-]; done|].
      destruct (0 <? _); done.
    + intros [H ->]. by apply Allow_zero_rate.
  - intros Hrate nows. revert r Hrate.
    induction nows as [|t nows IH]; intros r Hrate; simpl; [eauto|].
    destruct (Allow t r) as [[r1 b1]|p] eqn:E.
    + destruct (Allow_fields _ _ _ _ E) as [_ Hr1]. simpl.
      destruct (IH r1 ltac:(congruence)) as (r2 & bs & -> & Hlen & Hr2). simpl.
      eexists _, _. split_and!; [done | simpl; lia | congruence].
    + exfalso. revert E. unfold Allow, refill, GoInt.quo.
      destruct (Z.eqb_spec (refillRate r) 0); [done|]. simpl.
      destruct (0 <? _); done.
Qed.


(** * Further properties of the store *)

Section StoreExtras.

Lemma Allow_at_inv (now : Time) (p : nat) (s s' : RateLimiterStore) (b : bool) :
  Allow_at now p s = Returned (s', b) ->
  exists r r', cells s !! p = Some r /\ Allow now r = Returned (r', b) /\
               s' = {| limiters := limiters s; cells := <[p := r']> (cells s) |}.
Proof.
  unfold Allow_at. destruct (cells s !! p) as [r|]; [|done].
  destruct (Allow now r) as [[r' b']|] eqn:E; [|done]. simpl.
  intros [= <- <-]. eexists _, _. split_and!; done.
Qed.

Lemma Allows_at_inv (nows : list Time) (p : nat) :
  forall (s s' : RateLimiterStore) (r : RateLimiter) (bs : list bool),
    cells s !! p = Some r ->
    Allows_at nows p s = Returned (s', bs) ->
    exists r', Allows nows r = Returned (r', bs) /\
               s' = {| limiters := limiters s; cells := <[p := r']> (cells s) |}.
Proof.
  induction nows as [|now nows IH]; intros s s' r bs Hp; simpl.
  - intros [= <- <-]. exists r. rewrite list_insert_id by done. destruct s; done.
  - destruct (Allow_at now p s) as [[s1 b1]|] eqn:E; [|done]. simpl.
    destruct (Allow_at_inv _ _ _ _ _ E) as (r0 & r1 & Hp0 & HA & ->).
    rewrite Hp in Hp0. injection Hp0 as <-. rewrite HA. simpl.
    destruct (Allows_at nows p _) as [[s2 bs2]|] eqn:E2; [|done]. simpl.
    intros [= <- <-].
    assert (Hp1 : cells {| limiters := limiters s; cells := <[p:=r1]> (cells s) |} !! p
                  = Some r1)
      by (simpl; apply list_lookup_insert_eq; by eapply lookup_lt_Some).
    destruct (IH _ _ r1 _ Hp1 E2) as (r2 & -> & ->).
    simpl. exists r2. rewrite list_insert_insert_eq. done.
Qed.

Lemma store_inv_new : store_inv NewRateLimiterStore.
Proof.
  split; [intros key p H | intros k1 k2 p H _];
    unfold NewRateLimiterStore in H; simpl in H; by rewrite ?lookup_empty in H.
Qed.

Lemma store_inv_GetLimiter (clientID : string) (maxTokens : Z) (refillRate : Duration)
    (now : Time) (s : RateLimiterStore) :
  store_inv s -> store_inv (snd (GetLimiter clientID maxTokens refillRate now s)).
Proof.
  intros [Hwf Hinj]. unfold GetLimiter.
  destruct (limiters s !! clientID) as [p|] eqn:E; simpl; [done|].
  split.
  - intros key p. simpl. rewrite length_app. simpl.
    destruct (decide (clientID = key)) as [->|Hne].
    + rewrite lookup_insert_eq. intros [= <-]. lia.
    + rewrite lookup_insert_ne by done. intros H%Hwf. lia.
  - intros k1 k2 p. simpl.
    destruct (decide (clientID = k1)) as [<-|Hne1], (decide (clientID = k2)) as [<-|Hne2];
      rewrite ?lookup_insert_eq, ?lookup_insert_ne by done; try done.
    + intros [= <-] H%Hwf. lia.
    + intros H%Hwf [= <-]. lia.
    + apply Hinj.
Qed.

Lemma store_inv_Allow_at (now : Time) (p : nat) (s s' : RateLimiterStore) (b : bool) :
  store_inv s -> Allow_at now p s = Returned (s', b) -> store_inv s'.
Proof.
  intros [Hwf Hinj] H. destruct (Allow_at_inv _ _ _ _ _ H) as (r & r' & _ & _ & ->).
  split; simpl; [|done].
  intros key q Hq. simpl in *. rewrite length_insert. by eapply Hwf.
Qed.

Lemma store_inv_cleanup_tick (now : Time) (s : RateLimiterStore) :
  store_inv s -> store_inv (cleanup_tick now s).
Proof.
  intros [Hwf Hinj].
  assert (Hsub : forall key p, limiters (cleanup_tick now s) !! key = Some p ->
                               limiters s !! key = Some p).
  { intros key p. rewrite cleanup_tick_lookup.
    destruct (limiters s !! key) as [q|]; [|done].
    destruct (inactive now (cells s) q); done. }
  split.
  - intros key p H%Hsub. simpl. by eapply Hwf.
  - intros k1 k2 p H1%Hsub H2%Hsub. by eapply Hinj.
Qed.

Lemma reachable_store_inv (s : RateLimiterStore) : reachable s -> store_inv s.
Proof.
  induction 1.
  - apply store_inv_new.
  - by apply store_inv_GetLimiter.
  - by eapply store_inv_Allow_at.
  - by apply store_inv_cleanup_tick.
Qed.

End StoreExtras.

(** X4.  Pointers stay good.  In every store reachable from a new one by
    lookups, calls (through current or stale pointers) and sweeps, every
    pointer in the map is allocated and no two keys share a limiter; so a
    lookup followed by [Allow] on the pointer it returns never dereferences
    an unallocated limiter: it returns, unless that limiter's interval is
    zero. *)
Theorem lookup_then_Allow_finds_its_limiter (s : RateLimiterStore) (clientID : string)
    (capacity : Z) (interval : Duration) (nowG nowA : Time) :
  reachable s ->
  store_inv s /\
  let g := GetLimiter clientID capacity interval nowG s in
  exists r, cells (snd g) !! fst g = Some r /\
            limiters (snd g) !! clientID = Some (fst g) /\
            (refillRate r <> 0 ->
             exists s' b, Allow_at nowA (fst g) (snd g) = Returned (s', b)) /\
            (refillRate r = 0 ->
             Allow_at nowA (fst g) (snd g) = Panicked DivideByZero).
Proof.
  intros Hreach. pose proof (reachable_store_inv _ Hreach) as Hinv.
  split; [done|]. cbv zeta.
  destruct Hinv as [Hwf _].
  destruct (GetLimiter_registered clientID capacity interval nowG s Hwf)
    as (Hreg & [r Hr] & _).
  exists r. split_and!; [done | done | |].
  - intros Hrate. unfold Allow_at. rewrite Hr.
    destruct (Allow nowA r) as [[r' b]|p] eqn:E; simpl; [eauto|].
    exfalso. revert E. unfold Allow, refill, GoInt.quo.
    destruct (Z.eqb_spec (refillRate r) 0); [done|]. simpl. destruct (0 <? _); done.
  - intros Hrate. unfold Allow_at. rewrite Hr, Allow_zero_rate by done. done.
Qed.

Lemma lookup_then_Allow_finds_its_limiter_witness :
  store_inv (cleanup_tick 99 (snd (GetLimiter "A" 3 Second 5 NewRateLimiterStore))) /\
  let g := GetLimiter "B" 2 Second 100
             (cleanup_tick 99 (snd (GetLimiter "A" 3 Second 5 NewRateLimiterStore))) in
  exists r, cells (snd g) !! fst g = Some r /\
            limiters (snd g) !! "B" = Some (fst g) /\
            (refillRate r <> 0 ->
             exists s' b, Allow_at 101 (fst g) (snd g) = Returned (s', b)) /\
            (refillRate r = 0 ->
             Allow_at 101 (fst g) (snd g) = Panicked DivideByZero).
Proof.
  apply (lookup_then_Allow_finds_its_limiter
           (cleanup_tick 99 (snd (GetLimiter "A" 3 Second 5 NewRateLimiterStore)))
           "B" 2 Second 100 101).
  apply reachable_cleanup. apply reachable_GetLimiter. apply reachable_new.
Defined.

(** X5.  Clients are throttled independently.  In a store that does not
    alias, the limiters of two distinct keys are distinct; a run of calls
    on the first key's limiter leaves the map and the second key's limiter
    as they were, and every run on the second key's limiter then gives the
    answers, and leaves the balance, it would have given without the first
    run; and looking up (or creating) any other key does not touch it
    either. *)
Theorem keys_do_not_interfere (s s1 : RateLimiterStore) (k1 k2 : string) (p1 p2 : nat)
    (nows1 : list Time) (bs1 : list bool) :
  store_inv s -> k1 <> k2 ->
  limiters s !! k1 = Some p1 -> limiters s !! k2 = Some p2 ->
  Allows_at nows1 p1 s = Returned (s1, bs1) ->
  p1 <> p2 /\
  limiters s1 = limiters s /\
  cells s1 !! p2 = cells s !! p2 /\
  (forall (nows2 : list Time) (s2 : RateLimiterStore) (bs2 : list bool),
     Allows_at nows2 p2 s = Returned (s2, bs2) ->
     exists s2', Allows_at nows2 p2 s1 = Returned (s2', bs2) /\
                 cells s2' !! p2 = cells s2 !! p2) /\
  (forall (k3 : string) (capacity : Z) (interval : Duration) (now : Time),
     k3 <> k2 ->
     let g := GetLimiter k3 capacity interval now s in
     fst g <> p2 /\ limiters (snd g) !! k2 = Some p2 /\
     cells (snd g) !! p2 = cells s !! p2).
Proof.
  intros [Hwf Hinj] Hne Hk1 Hk2 Hrun.
  assert (Hp : p1 <> p2) by (intros ->; apply Hne; by eapply Hinj).
  destruct (lookup_lt_is_Some_2 (cells s) p1 (Hwf _ _ Hk1)) as [r1 Hr1].
  destruct (lookup_lt_is_Some_2 (cells s) p2 (Hwf _ _ Hk2)) as [r2 Hr2].
  destruct (Allows_at_inv _ _ _ _ _ _ Hr1 Hrun) as (r1' & _ & ->). simpl.
  split_and!; [done | done | by apply list_lookup_insert_ne | |].
  - intros nows2 s2 bs2 Hrun2.
    destruct (Allows_at_inv _ _ _ _ _ _ Hr2 Hrun2) as (r2' & Hruns & ->).
    eexists. split.
    + eapply Allows_at_cell; [|exact Hruns]. simpl.
      rewrite list_lookup_insert_ne by done. done.
    + simpl. pose proof (lookup_lt_Some _ _ _ Hr2).
      rewrite !list_lookup_insert_eq; rewrite ?length_insert; done.
  - intros k3 capacity interval now Hk3. cbv zeta. unfold GetLimiter.
    destruct (limiters s !! k3) as [p3|] eqn:E3; simpl.
    + split_and!; [|done|done]. intros ->. apply Hk3. by eapply Hinj.
    + pose proof (lookup_lt_Some _ _ _ Hr2).
      split_and!; [lia | by rewrite lookup_insert_ne | by rewrite lookup_app_l].
Qed.

Lemma keys_do_not_interfere_witness :
  let s := snd (GetLimiter "B" 1 Second 5 (snd (GetLimiter "A" 1 Second 5 NewRateLimiterStore))) in
  let s1 := {| limiters := limiters s;
               cells := [ {| tokens := 0; maxTokens := 1; refillRate := Second;
                             lastRefillTime := 5 |};
                          newLimiter 1 Second 5 ] |} in
  0%nat <> 1%nat /\
  limiters s1 = limiters s /\
  cells s1 !! 1%nat = cells s !! 1%nat /\
  (forall (nows2 : list Time) (s2 : RateLimiterStore) (bs2 : list bool),
     Allows_at nows2 1 s = Returned (s2, bs2) ->
     exists s2', Allows_at nows2 1 s1 = Returned (s2', bs2) /\
                 cells s2' !! 1%nat = cells s2 !! 1%nat) /\
  (forall (k3 : string) (capacity : Z) (interval : Duration) (now : Time),
     k3 <> "B" ->
     let g := GetLimiter k3 capacity interval now s in
     fst g <> 1%nat /\ limiters (snd g) !! "B" = Some 1%nat /\
     cells (snd g) !! 1%nat = cells s !! 1%nat).
Proof.
  apply (keys_do_not_interfere
           (snd (GetLimiter "B" 1 Second 5
                   (snd (GetLimiter "A" 1 Second 5 NewRateLimiterStore))))
           _ "A" "B" 0 1 [6; 7] [true; false]).
  - do 2 apply store_inv_GetLimiter. apply store_inv_new.
  - discriminate.
  - reflexivity.
  - reflexivity.
  - reflexivity.
Defined.

Section SweepExtras.

Lemma store_eq (s s' : RateLimiterStore) :
  limiters s = limiters s' -> cells s = cells s' -> s = s'.
Proof. destruct s, s'. simpl. intros -> ->. done. Qed.

Lemma inactive_mono (now1 now2 : Time) (cs : list RateLimiter) (p : nat) :
  now1 <= now2 -> inactive now1 cs p = true -> inactive now2 cs p = true.
Proof.
  unfold inactive, Sub. intros Hle. destruct (cs !! p) as [r|]; [|done].
  rewrite !saturate_gt
    by (unfold GoInt.min_int, GoInt.max_int, Minute, Second, Nanosecond; lia).
  intros H%Z.ltb_lt. apply Z.ltb_lt. lia.
Qed.

End SweepExtras.

(** X6.  Sweeps compose.  A sweep allocates and frees nothing (the
    limiters stay at their addresses); a sweep after an earlier sweep leaves
    exactly what the later sweep alone would have left; in particular
    sweeping twice at the same reading is sweeping once. *)
Theorem cleanup_ticks_compose (s : RateLimiterStore) (now1 now2 : Time) :
  now1 <= now2 ->
  cells (cleanup_tick now1 s) = cells s /\
  cleanup_tick now2 (cleanup_tick now1 s) = cleanup_tick now2 s /\
  cleanup_tick now1 (cleanup_tick now1 s) = cleanup_tick now1 s.
Proof.
  intros Hle.
  assert (H : forall t1 t2, t1 <= t2 ->
                cleanup_tick t2 (cleanup_tick t1 s) = cleanup_tick t2 s).
  { intros t1 t2 Ht. apply store_eq; [|done].
    apply map_eq. intros key. rewrite !cleanup_tick_lookup.
    destruct (limiters s !! key) as [p|]; [|done].
    change (cells (cleanup_tick t1 s)) with (cells s).
    destruct (inactive t1 (cells s) p) eqn:E1; [|done].
    by rewrite (inactive_mono t1 t2 _ _ Ht E1). }
  split_and!; [done | by apply H | apply H; lia].
Qed.

Lemma cleanup_ticks_compose_witness :
  let s := snd (GetLimiter "A" 3 Second 5 NewRateLimiterStore) in
  cells (cleanup_tick 10 s) = cells s /\
  cleanup_tick (5 + 31 * Minute) (cleanup_tick 10 s) = cleanup_tick (5 + 31 * Minute) s /\
  cleanup_tick 10 (cleanup_tick 10 s) = cleanup_tick 10 s.
Proof.
  apply (cleanup_ticks_compose (snd (GetLimiter "A" 3 Second 5 NewRateLimiterStore))
           10 (5 + 31 * Minute)).
  vm_compute. discriminate.
Defined.

(** X7.  Eviction can reset a throttle that has not run out.  Take a
    registered limiter with nothing left, unused for more than 30 minutes
    but for less than its refill interval (an interval longer than the idle
    threshold, as with one request per hour).  A call through it at [nowA]
    is refused; but once a sweep has run, the lookup of the same key in the
    same situation creates a full limiter of any capacity [N >= 1] and the
    call is allowed. *)
Theorem eviction_resets_throttle (s : RateLimiterStore) (key : string) (p : nat)
    (r : RateLimiter) (N : Z) (interval : Duration) (nowS nowG nowA : Time) :
  limiters s !! key = Some p -> cells s !! p = Some r ->
  GoInt.in_range (tokens r) -> tokens r <= 0 ->
  1 <= N <= GoInt.max_int ->
  30 * Minute < nowS - lastRefillTime r ->
  0 <= Sub nowA (lastRefillTime r) < refillRate r ->
  0 <= Sub nowA nowG < interval ->
  (exists s1, Allow_at nowA p s = Returned (s1, false)) /\
  (let g := GetLimiter key N interval nowG (cleanup_tick nowS s) in
   fst g <> p /\
   exists s2, Allow_at nowA (fst g) (snd g) = Returned (s2, true)).
Proof.
  intros Hkey Hp Ht Hempty HN Hidle Hshort Hnew. split.
  - unfold Allow_at. rewrite Hp. unfold Allow, refill.
    rewrite quo_small by done. simpl. rewrite consume_spec by done.
    destruct (Z.ltb_spec 0 (tokens r)); [lia|]. simpl. eauto.
  - cbv zeta.
    assert (Hgone : limiters (cleanup_tick nowS s) !! key = None).
    { rewrite cleanup_tick_lookup, Hkey. unfold inactive, Sub. rewrite Hp.
      rewrite saturate_gt
        by (unfold GoInt.min_int, GoInt.max_int, Minute, Second, Nanosecond; lia).
      destruct (Z.ltb_spec (30 * Minute) (nowS - lastRefillTime r)); [done | lia]. }
    rewrite GetLimiter_absent by done. simpl.
    pose proof (lookup_lt_Some _ _ _ Hp).
    split; [lia|].
    unfold Allow_at. simpl. rewrite list_lookup_middle by done.
    unfold Allow, refill. simpl. rewrite quo_small by done. simpl.
    rewrite consume_spec by (simpl; unfold GoInt.in_range, GoInt.min_int; lia). simpl.
    destruct (Z.ltb_spec 0 N); [|lia]. simpl. eauto.
Qed.

Lemma eviction_resets_throttle_witness :
  let s := {| limiters := {[ "A" := 0%nat ]};
              cells := [ {| tokens := 0; maxTokens := 1; refillRate := 60 * Minute;
                            lastRefillTime := 5 |} ] |} in
  (exists s1, Allow_at (5 + 31 * Minute + 2) 0 s = Returned (s1, false)) /\
  (let g := GetLimiter "A" 1 (60 * Minute) (5 + 31 * Minute + 1)
              (cleanup_tick (5 + 31 * Minute) s) in
   fst g <> 0%nat /\
   exists s2, Allow_at (5 + 31 * Minute + 2) (fst g) (snd g) = Returned (s2, true)).
Proof.
  apply (eviction_resets_throttle
           {| limiters := {[ "A" := 0%nat ]};
              cells := [ {| tokens := 0; maxTokens := 1; refillRate := 60 * Minute;
                            lastRefillTime := 5 |} ] |}
           "A" 0
           {| tokens := 0; maxTokens := 1; refillRate := 60 * Minute; lastRefillTime := 5 |}
           1 (60 * Minute) (5 + 31 * Minute) (5 + 31 * Minute + 1) (5 + 31 * Minute + 2)).
  - reflexivity.
  - reflexivity.
  - int_bounds.
  - simpl. lia.
  - int_bounds.
  - vm_compute. reflexivity.
  - vm_compute. split; [discriminate | reflexivity].
  - vm_compute. split; [discriminate | reflexivity].
Defined.




(** * Further properties of the middlewares *)

Section MiddlewareExtras.

Lemma store_of_interval_new (d : Duration) : store_of_interval d NewRateLimiterStore.
Proof.
  split; [|constructor]. intros key p H.
  unfold NewRateLimiterStore in H. simpl in H. by rewrite lookup_empty in H.
Qed.

Lemma store_of_interval_GetLimiter (d : Duration) (s : RateLimiterStore)
    (key : string) (capacity : Z) (nowG : Time) :
  store_of_interval d s ->
  store_of_interval d (snd (GetLimiter key capacity d nowG s)) /\
  exists r, cells (snd (GetLimiter key capacity d nowG s))
              !! fst (GetLimiter key capacity d nowG s) = Some r /\
            refillRate r = d.
Proof.
  intros [Hwf Hall].
  destruct (GetLimiter_registered key capacity d nowG s Hwf) as (_ & [r Hr] & Hwf').
  assert (Hall' : Forall (fun r => refillRate r = d)
                    (cells (snd (GetLimiter key capacity d nowG s)))).
  { unfold GetLimiter. destruct (limiters s !! key); simpl; [done|].
    apply Forall_app. split; [done|]. by constructor. }
  split; [done|]. exists r. split; [done|].
  rewrite Forall_forall in Hall'. apply Hall'. by eapply list_elem_of_lookup_2.
Qed.

Lemma store_of_interval_Allow_at (d : Duration) (s s' : RateLimiterStore)
    (now : Time) (p : nat) (b : bool) :
  store_of_interval d s -> Allow_at now p s = Returned (s', b) -> store_of_interval d s'.
Proof.
  intros [Hwf Hall] H.
  destruct (Allow_at_inv _ _ _ _ _ H) as (r & r' & Hp & HA & ->).
  destruct (Allow_fields _ _ _ _ HA) as [_ Hr].
  split.
  - intros key q Hq. simpl in *. rewrite length_insert. by eapply Hwf.
  - simpl. apply Forall_insert; [done|].
    rewrite Hr. rewrite Forall_forall in Hall. apply Hall.
    by eapply list_elem_of_lookup_2.
Qed.

(** The common tail of the four handlers: a lookup, then [Allow]. *)
Lemma lookup_Allow_returns (d : Duration) (s : RateLimiterStore) (key : string)
    (capacity : Z) (nowG nowA : Time) :
  d <> 0 -> store_of_interval d s ->
  exists s' b,
    Allow_at nowA (fst (GetLimiter key capacity d nowG s))
                  (snd (GetLimiter key capacity d nowG s)) = Returned (s', b) /\
    store_of_interval d s'.
Proof.
  intros Hd Hs.
  destruct (store_of_interval_GetLimiter d s key capacity nowG Hs) as (Hs1 & r & Hr & Hrate).
  destruct (Allow_at nowA _ _) as [[s' b]|p] eqn:E.
  - exists s', b. split; [done|]. by eapply store_of_interval_Allow_at.
  - exfalso. revert E. unfold Allow_at. rewrite Hr.
    unfold Allow, refill, GoInt.quo.
    destruct (Z.eqb_spec (refillRate r) 0); [congruence|]. simpl.
    destruct (0 <? _); done.
Qed.

Lemma lookup_Allow_divides_by_zero (s : RateLimiterStore) (key : string)
    (capacity : Z) (nowG nowA : Time) :
  store_of_interval 0 s ->
  Allow_at nowA (fst (GetLimiter key capacity 0 nowG s))
                (snd (GetLimiter key capacity 0 nowG s)) = Panicked DivideByZero.
Proof.
  intros Hs.
  destruct (store_of_interval_GetLimiter 0 s key capacity nowG Hs) as (_ & r & Hr & Hrate).
  unfold Allow_at. rewrite Hr, Allow_zero_rate by done. done.
Qed.

End MiddlewareExtras.

Ltac handler_tail lem :=
  match goal with
  | |- context [GetLimiter ?key ?capacity ?d ?nowG ?s] =>
      let H := fresh "Htail" in
      pose proof (lem key capacity nowG) as H;
      destruct (GetLimiter key capacity d nowG s) as [limiter store]; simpl in H
  end.

(** X9.  A configuration with at least one request and at least one
    nanosecond of window per request never fails.  For [1 <= maxRequests <=
    window] the derived interval is at least one nanosecond and
    [maxRequests] intervals fit in the window, each constructor succeeds,
    and each handler, started on its new store, returns for every request
    it derives a key for, whatever the clock readings: no division by zero,
    no bad pointer, request after request. *)
Theorem valid_configuration_always_serves (maxRequests : Z) (window : Duration) :
  1 <= maxRequests <= window -> window <= GoInt.max_int ->
  exists d : Duration,
    GoInt.quo window maxRequests = Returned d /\
    1 <= d /\ maxRequests * d <= window /\
    store_of_interval d NewRateLimiterStore /\
    (exists h, RateLimitMiddleware maxRequests window = Returned (NewRateLimiterStore, h) /\
               serves h d key_by_identity) /\
    (exists h, IPRateLimitMiddleware maxRequests window = Returned (NewRateLimiterStore, h) /\
               serves h d key_by_address) /\
    (exists h, APIKeyRateLimitMiddleware maxRequests window
                 = Returned (NewRateLimiterStore, h) /\
               serves h d key_by_header) /\
    (forall getClientID,
     exists h, CustomRateLimitMiddleware maxRequests window getClientID
                 = Returned (NewRateLimiterStore, h) /\
               serves h d (key_by_function getClientID)).
Proof.
  intros Hmr Hw.
  assert (Hd : 1 <= window / maxRequests) by (apply Z.div_le_lower_bound; lia).
  assert (Hd' : maxRequests * (window / maxRequests) <= window)
    by (apply Z.mul_div_le; lia).
  assert (Hq : GoInt.quo window maxRequests = Returned (window / maxRequests)).
  { unfold GoInt.quo. destruct (Z.eqb_spec maxRequests 0); [lia|].
    rewrite Z.quot_div_nonneg by lia. rewrite wrap_id; [done|].
    unfold GoInt.in_range, GoInt.min_int. nia. }
  exists (window / maxRequests).
  assert (Hnz : window / maxRequests <> 0) by lia.
  split_and!; [done | done | done | apply store_of_interval_new | | | |];
    [| | | intros getClientID].
  - unfold RateLimitMiddleware. rewrite Hq. simpl. eexists. split; [reflexivity|].
    intros next nowG nowA s c key Hs Hkey.
    unfold key_by_identity in Hkey. unfold Get, ContextKeyUserID.
    destruct (Keys c !! "user_id") as [[userID|u|x]|]; try done; simpl;
      handler_tail (fun k m t => lookup_Allow_returns _ s k m t nowA Hnz Hs);
      destruct Htail as (s' & b & -> & Hs'); simpl; destruct b; simpl; eauto.
  - unfold IPRateLimitMiddleware. rewrite Hq. simpl. eexists. split; [reflexivity|].
    intros next nowG nowA s c key Hs Hkey.
    handler_tail (fun k m t => lookup_Allow_returns _ s k m t nowA Hnz Hs);
      destruct Htail as (s' & b & -> & Hs'); simpl; destruct b; simpl; eauto.
  - unfold APIKeyRateLimitMiddleware. rewrite Hq. simpl. eexists. split; [reflexivity|].
    intros next nowG nowA s c key Hs Hkey.
    handler_tail (fun k m t => lookup_Allow_returns _ s k m t nowA Hnz Hs);
      destruct Htail as (s' & b & -> & Hs'); simpl; destruct b; simpl; eauto.
  - unfold CustomRateLimitMiddleware. rewrite Hq. simpl. eexists. split; [reflexivity|].
    intros next nowG nowA s c key Hs Hkey.
    handler_tail (fun k m t => lookup_Allow_returns _ s k m t nowA Hnz Hs);
      destruct Htail as (s' & b & -> & Hs'); simpl; destruct b; simpl; eauto.
Qed.

Lemma valid_configuration_always_serves_witness :
  exists d : Duration,
    GoInt.quo (60 * Second) 100 = Returned d /\
    1 <= d /\ 100 * d <= 60 * Second /\
    store_of_interval d NewRateLimiterStore /\
    (exists h, RateLimitMiddleware 100 (60 * Second) = Returned (NewRateLimiterStore, h) /\
               serves h d key_by_identity) /\
    (exists h, IPRateLimitMiddleware 100 (60 * Second) = Returned (NewRateLimiterStore, h) /\
               serves h d key_by_address) /\
    (exists h, APIKeyRateLimitMiddleware 100 (60 * Second)
                 = Returned (NewRateLimiterStore, h) /\
               serves h d key_by_header) /\
    (forall getClientID,
     exists h, CustomRateLimitMiddleware 100 (60 * Second) getClientID
                 = Returned (NewRateLimiterStore, h) /\
               serves h d (key_by_function getClientID)).
Proof.
  apply (valid_configuration_always_serves 100 (60 * Second)).
  - vm_compute. split; discriminate.
  - vm_compute. discriminate.
Defined.

(** X10.  More requests than nanoseconds.  For [0 <= window <
    maxRequests] (a zero window, or a window shorter in nanoseconds than the
    number of requests) each of the four constructors succeeds with a zero
    interval, and the handler it returns panics with a division by zero on
    every request it derives a key for, the first and all later ones. *)
Theorem window_shorter_than_maxRequests_always_panics (maxRequests : Z)
    (window : Duration) :
  0 <= window < maxRequests ->
  GoInt.quo window maxRequests = Returned 0 /\
  store_of_interval 0 NewRateLimiterStore /\
  (exists h, RateLimitMiddleware maxRequests window = Returned (NewRateLimiterStore, h) /\
             always_divides_by_zero h key_by_identity) /\
  (exists h, IPRateLimitMiddleware maxRequests window = Returned (NewRateLimiterStore, h) /\
             always_divides_by_zero h key_by_address) /\
  (exists h, APIKeyRateLimitMiddleware maxRequests window
               = Returned (NewRateLimiterStore, h) /\
             always_divides_by_zero h key_by_header) /\
  (forall getClientID,
   exists h, CustomRateLimitMiddleware maxRequests window getClientID
               = Returned (NewRateLimiterStore, h) /\
             always_divides_by_zero h (key_by_function getClientID)).
Proof.
  intros Hw.
  pose proof (quo_small window maxRequests Hw) as Hq.
  split_and!; [done | apply store_of_interval_new | | | |]; [| | | intros getClientID].
  - unfold RateLimitMiddleware. rewrite Hq. simpl. eexists. split; [reflexivity|].
    intros next nowG nowA s c key Hs Hkey.
    unfold key_by_identity in Hkey. unfold Get, ContextKeyUserID.
    destruct (Keys c !! "user_id") as [[userID|u|x]|]; try done; simpl;
      handler_tail (fun k m t => lookup_Allow_divides_by_zero s k m t nowA Hs);
      rewrite Htail; done.
  - unfold IPRateLimitMiddleware. rewrite Hq. simpl. eexists. split; [reflexivity|].
    intros next nowG nowA s c key Hs Hkey.
    handler_tail (fun k m t => lookup_Allow_divides_by_zero s k m t nowA Hs);
      rewrite Htail; done.
  - unfold APIKeyRateLimitMiddleware. rewrite Hq. simpl. eexists. split; [reflexivity|].
    intros next nowG nowA s c key Hs Hkey.
    handler_tail (fun k m t => lookup_Allow_divides_by_zero s k m t nowA Hs);
      rewrite Htail; done.
  - unfold CustomRateLimitMiddleware. rewrite Hq. simpl. eexists. split; [reflexivity|].
    intros next nowG nowA s c key Hs Hkey.
    handler_tail (fun k m t => lookup_Allow_divides_by_zero s k m t nowA Hs);
      rewrite Htail; done.
Qed.

Lemma window_shorter_than_maxRequests_always_panics_witness :
  GoInt.quo 0 100 = Returned 0 /\
  store_of_interval 0 NewRateLimiterStore /\
  (exists h, RateLimitMiddleware 100 0 = Returned (NewRateLimiterStore, h) /\
             always_divides_by_zero h key_by_identity) /\
  (exists h, IPRateLimitMiddleware 100 0 = Returned (NewRateLimiterStore, h) /\
             always_divides_by_zero h key_by_address) /\
  (exists h, APIKeyRateLimitMiddleware 100 0 = Returned (NewRateLimiterStore, h) /\
             always_divides_by_zero h key_by_header) /\
  (forall getClientID,
   exists h, CustomRateLimitMiddleware 100 0 getClientID
               = Returned (NewRateLimiterStore, h) /\
             always_divides_by_zero h (key_by_function getClientID)).
Proof.
  apply (window_shorter_than_maxRequests_always_panics 100 0). lia.
Defined.

(** X11.  Quotas are kept per derived key, and the key spaces of the
    policies overlap.  In [APIKeyRateLimitMiddleware] a request carrying the
    header [API-Key: a] and a request without that header from the address
    [a] are charged to the same limiter; in [RateLimitMiddleware] so are a
    request authenticated as the (string) user [a] and an anonymous request
    from the address [a]: in each case the store after handling the one
    request is the store after handling the other, panics included. *)
Theorem key_spaces_overlap (maxRequests : Z) (window d : Duration) (a : string) :
  GoInt.quo window maxRequests = Returned d ->
  a <> EmptyString ->
  (exists h, APIKeyRateLimitMiddleware maxRequests window
               = Returned (NewRateLimiterStore, h) /\
     forall (next : Context -> Context) (nowG nowA : Time) (s : RateLimiterStore)
            (c1 c2 : Context),
       Header c1 !! "API-Key" = Some a ->
       Header c2 !! "API-Key" = None -> ClientIP c2 = a ->
       store_after (h next nowG nowA s c1) = store_after (h next nowG nowA s c2)) /\
  (exists h, RateLimitMiddleware maxRequests window
               = Returned (NewRateLimiterStore, h) /\
     forall (next : Context -> Context) (nowG nowA : Time) (s : RateLimiterStore)
            (c1 c2 : Context),
       Keys c1 !! "user_id" = Some (AnyString a) ->
       Keys c2 !! "user_id" = None -> ClientIP c2 = a ->
       store_after (h next nowG nowA s c1) = store_after (h next nowG nowA s c2)).
Proof.
  intros Hq Ha. split.
  - unfold APIKeyRateLimitMiddleware. rewrite Hq. simpl. eexists. split; [reflexivity|].
    intros next nowG nowA s c1 c2 H1 H2 Hip. unfold GetHeader. rewrite H1, H2, Hip. simpl.
    destruct a as [|x a]; [done|]. simpl.
    destruct (GetLimiter _ _ _ _ _) as [limiter store].
    destruct (Allow_at nowA limiter store) as [[s' b]|]; simpl; [|done].
    destruct b; done.
  - unfold RateLimitMiddleware. rewrite Hq. simpl. eexists. split; [reflexivity|].
    intros next nowG nowA s c1 c2 H1 H2 Hip. unfold Get, ContextKeyUserID.
    rewrite H1, H2, Hip. simpl.
    destruct (GetLimiter _ _ _ _ _) as [limiter store].
    destruct (Allow_at nowA limiter store) as [[s' b]|]; simpl; [|done].
    destruct b; done.
Qed.

Lemma key_spaces_overlap_witness :
  (exists h, APIKeyRateLimitMiddleware 3 (3 * Second)
               = Returned (NewRateLimiterStore, h) /\
     forall (next : Context -> Context) (nowG nowA : Time) (s : RateLimiterStore)
            (c1 c2 : Context),
       Header c1 !! "API-Key" = Some "10.0.0.7" ->
       Header c2 !! "API-Key" = None -> ClientIP c2 = "10.0.0.7" ->
       store_after (h next nowG nowA s c1) = store_after (h next nowG nowA s c2)) /\
  (exists h, RateLimitMiddleware 3 (3 * Second)
               = Returned (NewRateLimiterStore, h) /\
     forall (next : Context -> Context) (nowG nowA : Time) (s : RateLimiterStore)
            (c1 c2 : Context),
       Keys c1 !! "user_id" = Some (AnyString "10.0.0.7") ->
       Keys c2 !! "user_id" = None -> ClientIP c2 = "10.0.0.7" ->
       store_after (h next nowG nowA s c1) = store_after (h next nowG nowA s c2)).
Proof.
  apply (key_spaces_overlap 3 (3 * Second) Second "10.0.0.7").
  - reflexivity.
  - discriminate.
Defined.

(** A stranger who sends the victim's address as API key uses up the
    victim's quota: after one such request, the victim's first request is
    rejected. *)
Example header_exhausts_the_quota_of_an_address :
  let attacker := {| ClientIP := "203.0.113.9"; Keys := ∅;
                     Header := {[ "API-Key" := "10.0.0.7" ]};
                     Written := None; Aborted := false |} in
  let victim := {| ClientIP := "10.0.0.7"; Keys := ∅; Header := ∅;
                   Written := None; Aborted := false |} in
  exists h s1 s2,
    APIKeyRateLimitMiddleware 1 (60 * Second) = Returned (NewRateLimiterStore, h) /\
    h (fun c => c) 10 11 NewRateLimiterStore attacker = Returned (s1, attacker) /\
    h (fun c => c) 12 13 s1 victim =
      Returned (s2, spec_rejection "API rate limit exceeded. Please try again later." victim).
Proof. cbv zeta. eexists _, _, _. split_and!; reflexivity. Qed.

(** * Properties of the authentication middlewares and of the context helpers *)

Section StringFacts.

Lemma length_append (a b : string) :
  String.length (String.append a b) = (String.length a + String.length b)%nat.
Proof. induction a as [|x a IH]; simpl; [done | by rewrite IH]. Qed.

Lemma stripPrefix_Some (prefix s t : string) :
  stripPrefix prefix s = Some t <-> s = String.append prefix t.
Proof.
  revert s. induction prefix as [|p prefix IH]; intros s; simpl.
  - split; [by intros [= ->] | by intros ->].
  - destruct s as [|a s]; [done|].
    destruct (Ascii.eqb_spec a p) as [->|Hne].
    + rewrite IH. split; [by intros -> | by intros [= ->]].
    + split; [done | intros [= -> _]; done].
Qed.

Lemma TrimPrefix_append (prefix t : string) :
  TrimPrefix (String.append prefix t) prefix = t.
Proof.
  unfold TrimPrefix.
  by rewrite (proj2 (stripPrefix_Some prefix (String.append prefix t) t) eq_refl).
Qed.

Lemma append_neq (prefix t : string) :
  prefix <> EmptyString -> String.eqb t (String.append prefix t) = false.
Proof.
  intros Hp. apply String.eqb_neq. intros H.
  apply (f_equal String.length) in H. rewrite length_append in H.
  destruct prefix; [done|]. simpl in H. lia.
Qed.

Lemma TrimPrefix_other (prefix s : string) :
  stripPrefix prefix s = None -> TrimPrefix s prefix = s.
Proof. unfold TrimPrefix. by intros ->. Qed.

End StringFacts.

(** X12.  The package's two readers of [user_id] cannot both be served.
    [GetUserIDFromContext] reports an identity only for a stored UUID, and
    that is what the JWT middlewares store; the handler of
    [RateLimitMiddleware] asserts the stored value to be a string: on every
    context for which [GetUserIDFromContext] succeeds it panics (interface
    conversion) before reaching the limiter.  So a request that
    [JWTAuthMiddleware] lets through with an identity (a Bearer token the
    parser accepts, whose [user_id] claim parses as a UUID) makes the
    rate-limiting stage after it panic. *)
Theorem RateLimitMiddleware_panics_on_authenticated_requests
    (jwtParse : string -> string -> option (gmap string any))
    (uuidParse : string -> option string)
    (maxRequests : Z) (window d : Duration) :
  GoInt.quo window maxRequests = Returned d ->
  exists h,
    RateLimitMiddleware maxRequests window = Returned (NewRateLimiterStore, h) /\
    (forall (c : Context) (next : Context -> Context) (nowG nowA : Time)
            (s : RateLimiterStore),
       snd (GetUserIDFromContext c) = true ->
       h next nowG nowA s c = Panicked TypeAssertion) /\
    (forall (jwtSecret token userIDStr userID : string) (claims : gmap string any)
            (c : Context) (next : Context -> Context),
       GetHeader "Authorization" c = String.append "Bearer " token ->
       jwtParse token jwtSecret = Some claims ->
       claims !! "user_id" = Some (AnyString userIDStr) ->
       uuidParse userIDStr = Some userID ->
       let c' := SetKey ContextKeyUserID (AnyUUID userID) c in
       JWTAuthMiddleware jwtParse uuidParse jwtSecret next c = next c' /\
       GetUserIDFromContext c' = (userID, true) /\
       forall (next' : Context -> Context) (nowG nowA : Time) (s : RateLimiterStore),
         h next' nowG nowA s c' = Panicked TypeAssertion).
Proof.
  intros Hq. unfold RateLimitMiddleware. rewrite Hq. simpl.
  eexists. split; [reflexivity|].
  assert (Hpanic : forall (c : Context) (next : Context -> Context) (nowG nowA : Time)
                          (s : RateLimiterStore),
             snd (GetUserIDFromContext c) = true ->
             (clientID <- match Get ContextKeyUserID c with
                          | Some (AnyString userID) => Returned userID
                          | Some _ => Panicked TypeAssertion
                          | None => Returned (ClientIP c)
                          end ;;
              let '(limiter, store) := GetLimiter clientID maxRequests d nowG s in
              sb <- Allow_at nowA limiter store ;;
              if negb (snd sb) then
                Returned (fst sb,
                          Abort (ErrorResponse c StatusTooManyRequests "RATE_LIMIT_EXCEEDED"
                                   "Too many requests. Please try again later."))
              else Returned (fst sb, next c)) = Panicked TypeAssertion).
  { intros c next nowG nowA s. unfold GetUserIDFromContext.
    destruct (Get ContextKeyUserID c) as [[x|x|x]|]; simpl; done. }
  split; [exact Hpanic|].
  intros jwtSecret token userIDStr userID claims c next Hh Hp Hc Hu. cbv zeta.
  assert (Hget : GetUserIDFromContext (SetKey ContextKeyUserID (AnyUUID userID) c)
                 = (userID, true)).
  { unfold GetUserIDFromContext, Get, SetKey. simpl. by rewrite lookup_insert_eq. }
  split_and!.
  - unfold JWTAuthMiddleware. rewrite Hh. cbv zeta.
    change (String.eqb (String.append "Bearer " token) EmptyString) with false.
    cbv iota. rewrite TrimPrefix_append, append_neq by done.
    rewrite Hp, Hc, Hu. done.
  - done.
  - intros next' nowG nowA s. apply Hpanic. by rewrite Hget.
Qed.

Lemma RateLimitMiddleware_panics_on_authenticated_requests_witness :
  exists h,
    RateLimitMiddleware 3 (3 * Second) = Returned (NewRateLimiterStore, h) /\
    (forall (c : Context) (next : Context -> Context) (nowG nowA : Time)
            (s : RateLimiterStore),
       snd (GetUserIDFromContext c) = true ->
       h next nowG nowA s c = Panicked TypeAssertion) /\
    (forall (jwtSecret token userIDStr userID : string) (claims : gmap string any)
            (c : Context) (next : Context -> Context),
       GetHeader "Authorization" c = String.append "Bearer " token ->
       (fun _ _ => Some {[ "user_id" := AnyString "u" ]}) token jwtSecret = Some claims ->
       claims !! "user_id" = Some (AnyString userIDStr) ->
       (fun u => Some u) userIDStr = Some userID ->
       let c' := SetKey ContextKeyUserID (AnyUUID userID) c in
       JWTAuthMiddleware (fun _ _ => Some {[ "user_id" := AnyString "u" ]})
         (fun u => Some u) jwtSecret next c = next c' /\
       GetUserIDFromContext c' = (userID, true) /\
       forall (next' : Context -> Context) (nowG nowA : Time) (s : RateLimiterStore),
         h next' nowG nowA s c' = Panicked TypeAssertion).
Proof.
  apply (RateLimitMiddleware_panics_on_authenticated_requests
           (fun _ _ => Some {[ "user_id" := AnyString "u" ]}) (fun u => Some u)
           3 (3 * Second) Second).
  reflexivity.
Defined.

Section AuthorizationExtras.

Lemma IsAPIKeyAuth_SetKey (c : Context) :
  IsAPIKeyAuth (SetKey ContextKeyAPIKeyAuth (AnyBool true) c) = true.
Proof. unfold IsAPIKeyAuth, Get, SetKey. simpl. by rewrite lookup_insert_eq. Qed.

Lemma GetUserIDFromContext_SetKey (c : Context) (id : string) :
  GetUserIDFromContext (SetKey ContextKeyUserID (AnyUUID id) c) = (id, true).
Proof. unfold GetUserIDFromContext, Get, SetKey. simpl. by rewrite lookup_insert_eq. Qed.

(** The header of a request either starts with the prefix or does not. *)
Lemma stripPrefix_cases (prefix s : string) :
  stripPrefix prefix s = None \/ exists t, s = String.append prefix t.
Proof.
  destruct (stripPrefix prefix s) as [t|] eqn:E; [right | by left].
  exists t. by apply stripPrefix_Some.
Qed.

End AuthorizationExtras.

(** X13.  What [APIKeyAuthMiddleware] lets through.  With a non-empty
    configured key the next stage runs exactly for the requests whose
    [API-Key] header equals the key, and then [IsAPIKeyAuth] holds of the
    context it receives; every other request is answered 401 and aborted,
    with [MISSING_API_KEY] for an empty or absent header and
    [INVALID_API_KEY] otherwise.  With an empty configured key the check is
    off: every request goes on, untouched and unflagged. *)
Theorem APIKeyAuthMiddleware_decides (apiKey : string) (next : Context -> Context)
    (c : Context) :
  let run := APIKeyAuthMiddleware apiKey next c in
  let header := GetHeader "API-Key" c in
  (apiKey = EmptyString /\ run = next c) \/
  (apiKey <> EmptyString /\ header = apiKey /\
   run = next (SetKey ContextKeyAPIKeyAuth (AnyBool true) c) /\
   IsAPIKeyAuth (SetKey ContextKeyAPIKeyAuth (AnyBool true) c) = true) \/
  (apiKey <> EmptyString /\ header = EmptyString /\
   run = spec_unauthorized "MISSING_API_KEY" "API-Key header is required" c) \/
  (apiKey <> EmptyString /\ header <> EmptyString /\ header <> apiKey /\
   run = spec_unauthorized "INVALID_API_KEY" "Invalid API Key" c).
Proof.
  cbv zeta. unfold APIKeyAuthMiddleware.
  destruct (String.eqb_spec apiKey EmptyString) as [->|Hk]; [by left|]. right.
  destruct (String.eqb_spec (GetHeader "API-Key" c) EmptyString) as [He|He].
  - right. left. done.
  - destruct (String.eqb_spec (GetHeader "API-Key" c) apiKey) as [Heq|Hne]; simpl.
    + left. split_and!; try done. apply IsAPIKeyAuth_SetKey.
    + right. right. done.
Qed.

(** X14.  What [JWTAuthMiddleware] lets through.  The next stage runs
    exactly when the [Authorization] header is ["Bearer "] followed by a
    token the parser accepts; a missing header, a header without the prefix
    and a rejected token are each answered 401 and aborted, under the codes
    [MISSING_TOKEN], [INVALID_TOKEN_FORMAT] and [INVALID_TOKEN].  An accepted
    token whose [user_id] claim is a string that parses as a UUID reaches
    the next stage with that UUID stored, where [GetUserIDFromContext] finds
    it; an accepted token without such a claim is let through all the same,
    with the context unchanged. *)
Theorem JWTAuthMiddleware_decides
    (jwtParse : string -> string -> option (gmap string any))
    (uuidParse : string -> option string)
    (jwtSecret : string) (next : Context -> Context) (c : Context) :
  let run := JWTAuthMiddleware jwtParse uuidParse jwtSecret next c in
  let authHeader := GetHeader "Authorization" c in
  (authHeader = EmptyString /\
   run = spec_unauthorized "MISSING_TOKEN" "Authorization header is required" c) \/
  (authHeader <> EmptyString /\ stripPrefix "Bearer " authHeader = None /\
   run = spec_unauthorized "INVALID_TOKEN_FORMAT" "Token must be in Bearer format" c) \/
  (exists token,
     authHeader = String.append "Bearer " token /\
     jwtParse token jwtSecret = None /\
     run = spec_unauthorized "INVALID_TOKEN" "Token is invalid or expired" c) \/
  (exists token claims,
     authHeader = String.append "Bearer " token /\
     jwtParse token jwtSecret = Some claims /\
     ((exists userIDStr userID,
         claims !! "user_id" = Some (AnyString userIDStr) /\
         uuidParse userIDStr = Some userID /\
         run = next (SetKey ContextKeyUserID (AnyUUID userID) c) /\
         GetUserIDFromContext (SetKey ContextKeyUserID (AnyUUID userID) c)
           = (userID, true)) \/
      ((forall userIDStr, claims !! "user_id" = Some (AnyString userIDStr) ->
                          uuidParse userIDStr = None) /\
       run = next c))).
Proof.
  cbv zeta. unfold JWTAuthMiddleware.
  destruct (String.eqb_spec (GetHeader "Authorization" c) EmptyString) as [He|He];
    [by left|]. right.
  destruct (stripPrefix_cases "Bearer " (GetHeader "Authorization" c)) as [Hnone|[token Ht]].
  - left. rewrite (TrimPrefix_other _ _ Hnone), String.eqb_refl. done.
  - right. rewrite Ht, TrimPrefix_append, append_neq by done.
    destruct (jwtParse token jwtSecret) as [claims|] eqn:Hp.
    + right. exists token, claims. split_and!; [done | done |].
      destruct (claims !! "user_id") as [[u|u|u]|] eqn:Hc.
      * destruct (uuidParse u) as [id|] eqn:Hu.
        -- left. exists u, id. split_and!; try done.
           apply GetUserIDFromContext_SetKey.
        -- right. split; [|done]. intros u' [= <-]. done.
      * right. split; [|done]. intros u' [=].
      * right. split; [|done]. intros u' [=].
      * right. split; [|done]. intros u' [=].
    + left. exists token. done.
Qed.

(** X15.  [OptionalJWTAuthMiddleware] never refuses.  Whatever the
    headers and whatever the parser says, it hands a context to the next
    stage; that context has the response and the abort flag of the incoming
    one, and it is the incoming one unless the request carries a Bearer
    token the parser accepts with a [user_id] claim that parses as a UUID,
    in which case that UUID is stored (and found by
    [GetUserIDFromContext]). *)
Theorem OptionalJWTAuthMiddleware_never_refuses
    (jwtParse : string -> string -> option (gmap string any))
    (uuidParse : string -> option string)
    (jwtSecret : string) (next : Context -> Context) (c : Context) :
  exists c',
    OptionalJWTAuthMiddleware jwtParse uuidParse jwtSecret next c = next c' /\
    Written c' = Written c /\ Aborted c' = Aborted c /\
    ClientIP c' = ClientIP c /\ Header c' = Header c /\
    (c' = c \/
     exists token claims userIDStr userID,
       GetHeader "Authorization" c = String.append "Bearer " token /\
       jwtParse token jwtSecret = Some claims /\
       claims !! "user_id" = Some (AnyString userIDStr) /\
       uuidParse userIDStr = Some userID /\
       c' = SetKey ContextKeyUserID (AnyUUID userID) c /\
       GetUserIDFromContext c' = (userID, true)).
Proof.
  unfold OptionalJWTAuthMiddleware.
  destruct (String.eqb_spec (GetHeader "Authorization" c) EmptyString) as [He|He];
    [exists c; split_and!; auto|].
  destruct (stripPrefix_cases "Bearer " (GetHeader "Authorization" c)) as [Hnone|[token Ht]].
  - rewrite (TrimPrefix_other _ _ Hnone), String.eqb_refl. exists c. split_and!; auto.
  - rewrite Ht, TrimPrefix_append, append_neq by done.
    destruct (jwtParse token jwtSecret) as [claims|] eqn:Hp;
      [|exists c; split_and!; auto].
    destruct (claims !! "user_id") as [[u|u|u]|] eqn:Hc;
      try (exists c; split_and!; auto; fail).
    destruct (uuidParse u) as [id|] eqn:Hu; [|exists c; split_and!; auto].
    exists (SetKey ContextKeyUserID (AnyUUID id) c). split_and!; try done.
    right. exists token, claims, u, id. split_and!; try done.
    apply GetUserIDFromContext_SetKey.
Qed.

(** X16.  [APIKeyOrJWTAuthMiddleware] is the API-key check in front of
    [JWTAuthMiddleware].  A non-empty [API-Key] header equal to a non-empty
    configured key sends the request on, flagged, whatever its
    [Authorization] header; any other request (no key header, a wrong key,
    no key configured) is treated exactly as [JWTAuthMiddleware] treats it,
    except that a missing [Authorization] header is reported as
    [MISSING_AUTH]. *)
Theorem APIKeyOrJWTAuthMiddleware_falls_back_to_JWT
    (jwtParse : string -> string -> option (gmap string any))
    (uuidParse : string -> option string)
    (apiKey jwtSecret : string) (next : Context -> Context) (c : Context) :
  let run := APIKeyOrJWTAuthMiddleware jwtParse uuidParse apiKey jwtSecret next c in
  let header := GetHeader "API-Key" c in
  let keyMatches := header <> EmptyString /\ apiKey <> EmptyString /\ header = apiKey in
  (keyMatches ->
   run = next (SetKey ContextKeyAPIKeyAuth (AnyBool true) c) /\
   IsAPIKeyAuth (SetKey ContextKeyAPIKeyAuth (AnyBool true) c) = true) /\
  (~ keyMatches -> GetHeader "Authorization" c <> EmptyString ->
   run = JWTAuthMiddleware jwtParse uuidParse jwtSecret next c) /\
  (~ keyMatches -> GetHeader "Authorization" c = EmptyString ->
   run = spec_unauthorized "MISSING_AUTH" "API-Key or Authorization header is required" c).
Proof.
  cbv zeta. unfold APIKeyOrJWTAuthMiddleware, JWTAuthMiddleware.
  destruct (String.eqb_spec (GetHeader "API-Key" c) EmptyString) as [H1|H1];
    destruct (String.eqb_spec apiKey EmptyString) as [H2|H2];
    destruct (String.eqb_spec (GetHeader "API-Key" c) apiKey) as [H3|H3]; simpl;
    (split_and!; [intros (? & ? & ?) | intros Hn Ha | intros Hn Ha]); try done;
    try (exfalso; apply Hn; done).
  all: try (destruct (String.eqb_spec (GetHeader "Authorization" c) EmptyString); done).
  split; [done|]. apply IsAPIKeyAuth_SetKey.
Qed.


(** * Properties of InArray and Contains *)

Section SearchExtras.

Lemma rangeStrings_spec (str : string) (arr : list string) : forall i0 : Z,
  (exists n : nat,
     rangeStrings str arr i0 = (true, i0 + Z.of_nat n) /\
     arr !! n = Some str /\ forall j : nat, (j < n)%nat -> arr !! j <> Some str) \/
  (rangeStrings str arr i0 = (false, -1) /\ str ∉ arr).
Proof.
  induction arr as [|v arr IH]; intros i0; simpl.
  - right. split; [done|]. apply not_elem_of_nil.
  - destruct (String.eqb_spec v str) as [->|Hne].
    + left. exists 0%nat. split_and!; [f_equal; lia | done | lia].
    + destruct (IH (i0 + 1)) as [(n & Hr & Hn & Hfirst)|[Hr Hnot]].
      * left. exists (S n). split_and!; [rewrite Hr; f_equal; lia | done |].
        intros [|j] Hj; simpl; [congruence | apply Hfirst; lia].
      * right. split; [done|]. rewrite elem_of_cons. intros [->|H]; done.
Qed.

Lemma rangeInts_spec (num : Z) (arr : list Z) : forall i0 : Z,
  (exists n : nat,
     rangeInts num arr i0 = (true, i0 + Z.of_nat n) /\
     arr !! n = Some num /\ forall j : nat, (j < n)%nat -> arr !! j <> Some num) \/
  (rangeInts num arr i0 = (false, -1) /\ num ∉ arr).
Proof.
  induction arr as [|v arr IH]; intros i0; simpl.
  - right. split; [done|]. apply not_elem_of_nil.
  - destruct (Z.eqb_spec v num) as [->|Hne].
    + left. exists 0%nat. split_and!; [f_equal; lia | done | lia].
    + destruct (IH (i0 + 1)) as [(n & Hr & Hn & Hfirst)|[Hr Hnot]].
      * left. exists (S n). split_and!; [rewrite Hr; f_equal; lia | done |].
        intros [|j] Hj; simpl; [congruence | apply Hfirst; lia].
      * right. split; [done|]. rewrite elem_of_cons. intros [->|H]; done.
Qed.

Lemma Contains_spec (slice : list string) (item : string) :
  Contains slice item = true <-> item ∈ slice.
Proof.
  induction slice as [|s slice IH]; simpl.
  - split; [done | intros H; by apply not_elem_of_nil in H].
  - destruct (String.eqb_spec s item) as [->|Hne].
    + split; [intros _; apply elem_of_cons; by left | done].
    + rewrite IH, elem_of_cons. split; [by right | intros [->|H]; done].
Qed.

Lemma interface_eq_comparable (v needle : value) :
  comparable needle = true ->
  exists b, interface_eq v needle = Some b /\ (b = true <-> v = needle).
Proof.
  destruct needle, v; simpl; try done; intros _;
    try (exists false; split; [done | split; done]).
  - exists true. done.
  - eexists. split; [done|]. rewrite String.eqb_eq. split; [by intros -> | by intros [= ->]].
  - eexists. split; [done|]. rewrite Z.eqb_eq. split; [by intros -> | by intros [= ->]].
  - eexists. split; [done|]. rewrite Bool.eqb_true_iff.
    split; [by intros -> | by intros [= ->]].
Qed.

Lemma rangeValues_comparable (needle : value) (arr : list value) : forall i0 : Z,
  comparable needle = true ->
  (exists n : nat,
     rangeValues needle arr i0 = Some (true, i0 + Z.of_nat n) /\
     arr !! n = Some needle /\ forall j : nat, (j < n)%nat -> arr !! j <> Some needle) \/
  (rangeValues needle arr i0 = Some (false, -1) /\ needle ∉ arr).
Proof.
  intros i0 Hc. revert i0.
  induction arr as [|v arr IH]; intros i0; simpl.
  - right. split; [done|]. apply not_elem_of_nil.
  - destruct (interface_eq_comparable v needle Hc) as ([|] & -> & Hb).
    + left. exists 0%nat. rewrite (proj1 Hb eq_refl).
      split_and!; [do 2 f_equal; lia | done | lia].
    + assert (Hne : v <> needle) by (intros H; apply Hb in H; done).
      destruct (IH (i0 + 1)) as [(n & Hr & Hn & Hfirst)|[Hr Hnot]].
      * left. exists (S n). split_and!; [rewrite Hr; do 2 f_equal; lia | done |].
        intros [|j] Hj; simpl; [congruence | apply Hfirst; lia].
      * right. split; [done|]. rewrite elem_of_cons. intros [->|H]; done.
Qed.

Lemma interface_eq_uncomparable (v needle : value) :
  comparable needle = false ->
  interface_eq v needle = None \/ interface_eq v needle = Some false.
Proof. destruct needle, v; simpl; try done; auto. Qed.

Lemma rangeValues_uncomparable (needle : value) (arr : list value) : forall i0 : Z,
  comparable needle = false ->
  (rangeValues needle arr i0 = None /\
   exists v, v ∈ arr /\ interface_eq v needle = None) \/
  (rangeValues needle arr i0 = Some (false, -1) /\
   forall v, v ∈ arr -> interface_eq v needle = Some false).
Proof.
  intros i0 Hc. revert i0.
  induction arr as [|v arr IH]; intros i0; simpl.
  - right. split; [done|]. intros v H. by apply not_elem_of_nil in H.
  - destruct (interface_eq_uncomparable v needle Hc) as [Hv|Hv]; rewrite Hv.
    + left. split; [done|]. exists v. split; [apply elem_of_cons; by left | done].
    + destruct (IH (i0 + 1)) as [(Hr & w & Hw & Hwn)|[Hr Hall]].
      * left. split; [done|]. exists w. split; [apply elem_of_cons; by right | done].
      * right. split; [done|]. intros w [->|Hw]%elem_of_cons; [done | by apply Hall].
Qed.

End SearchExtras.

(** X17.  [InArray] on a typed slice and [Contains].  For a string needle
    in a [[]string] (and an int needle in a [[]int]) the call does not
    panic; it answers [true] exactly when the needle occurs, and then the
    position is that of the first occurrence; when it does not occur the
    answer is [false] with position -1.  On strings the answer is that of
    [Contains], which holds exactly of the members of the slice.  A needle
    of any other dynamic type is reported absent. *)
Theorem InArray_finds_first_occurrence (arr : list string) (nums : list Z) :
  (forall str : string,
     exists (found : bool) (i : Z),
       InArray (VString str) (VStrings arr) = Some (found, i) /\
       found = Contains arr str /\
       (found = true <-> str ∈ arr) /\
       (found = true ->
        0 <= i < Z.of_nat (length arr) /\ arr !! Z.to_nat i = Some str /\
        forall j : nat, (j < Z.to_nat i)%nat -> arr !! j <> Some str) /\
       (found = false -> i = -1)) /\
  (forall num : Z,
     exists (found : bool) (i : Z),
       InArray (VInt num) (VInts nums) = Some (found, i) /\
       (found = true <-> num ∈ nums) /\
       (found = true ->
        0 <= i < Z.of_nat (length nums) /\ nums !! Z.to_nat i = Some num /\
        forall j : nat, (j < Z.to_nat i)%nat -> nums !! j <> Some num) /\
       (found = false -> i = -1)) /\
  (forall needle : value,
     (forall str, needle <> VString str) ->
     InArray needle (VStrings arr) = Some (false, -1)) /\
  (forall needle : value,
     (forall num, needle <> VInt num) ->
     InArray needle (VInts nums) = Some (false, -1)).
Proof.
  split_and!.
  - intros str. simpl.
    assert (HC : Contains arr str = true <-> str ∈ arr) by apply Contains_spec.
    destruct (rangeStrings_spec str arr 0) as [(n & -> & Hn & Hfirst)|[-> Hnot]].
    + exists true, (0 + Z.of_nat n).
      assert (str ∈ arr) by (by eapply list_elem_of_lookup_2).
      pose proof (lookup_lt_Some _ _ _ Hn).
      replace (Z.to_nat (0 + Z.of_nat n)) with n by lia.
      split_and!; try done; try lia; try (symmetry; by apply HC).
      intros _. split_and!; [lia | lia | done | done].
    + exists false, (-1). split_and!; try done.
      destruct (Contains arr str) eqn:E; [|done]. exfalso. apply Hnot. by apply HC.
  - intros num. simpl.
    destruct (rangeInts_spec num nums 0) as [(n & -> & Hn & Hfirst)|[-> Hnot]].
    + exists true, (0 + Z.of_nat n).
      assert (num ∈ nums) by (by eapply list_elem_of_lookup_2).
      pose proof (lookup_lt_Some _ _ _ Hn).
      replace (Z.to_nat (0 + Z.of_nat n)) with n by lia.
      split_and!; try done; try lia.
      intros _. split_and!; [lia | lia | done | done].
    + exists false, (-1). split_and!; done.
  - intros needle Hn. destruct needle; simpl; try done. by destruct (Hn s).
  - intros needle Hn. destruct needle; simpl; try done. by destruct (Hn n).
Qed.

(** X18.  [InArray] on a [[]interface{}].  A needle of a comparable
    dynamic type (nil, string, int, bool) is searched without panic: found
    exactly when an equal value (same type, same value) occurs, at the
    position of the first occurrence, and otherwise absent with position
    -1.  A needle that is itself a slice is never found: the call panics
    when the haystack holds a slice of the needle's type (the comparison of
    the two is a run-time error), and otherwise reports it absent. *)
Theorem InArray_interfaces (needle : value) (arr : list value) :
  (comparable needle = true ->
   exists (found : bool) (i : Z),
     InArray needle (VValues arr) = Some (found, i) /\
     (found = true <-> needle ∈ arr) /\
     (found = true ->
      0 <= i < Z.of_nat (length arr) /\ arr !! Z.to_nat i = Some needle /\
      forall j : nat, (j < Z.to_nat i)%nat -> arr !! j <> Some needle) /\
     (found = false -> i = -1)) /\
  (comparable needle = false ->
   (InArray needle (VValues arr) = None /\
    exists v, v ∈ arr /\ interface_eq v needle = None) \/
   (InArray needle (VValues arr) = Some (false, -1) /\
    forall v, v ∈ arr -> interface_eq v needle = Some false)).
Proof.
  split; intros Hc; simpl.
  - destruct (rangeValues_comparable needle arr 0 Hc) as [(n & -> & Hn & Hfirst)|[-> Hnot]].
    + exists true, (0 + Z.of_nat n).
      assert (needle ∈ arr) by (by eapply list_elem_of_lookup_2).
      pose proof (lookup_lt_Some _ _ _ Hn).
      replace (Z.to_nat (0 + Z.of_nat n)) with n by lia.
      split_and!; try done; try lia.
      intros _. split_and!; [lia | lia | done | done].
    + exists false, (-1). split_and!; done.
  - apply rangeValues_uncomparable. done.
Qed.

Example InArray_panics_on_slices :
  InArray (VInts [1]) (VValues [VString "a"; VInts [2]; VInts [1]]) = None /\
  InArray (VInts [1]) (VValues [VString "a"; VStrings ["b"]]) = Some (false, -1) /\
  InArray (VString "b") (VValues [VInts [2]; VString "b"]) = Some (true, 1) /\
  InArray (VInt 1) (VStrings ["1"]) = Some (false, -1).
Proof. split_and!; reflexivity. Qed.


(** * Refused calls *)

(** X19.  Refused calls leave no trace.  On a limiter with nothing left,
    every call made before a whole interval has passed since the last
    refill is refused and leaves the limiter exactly as it was, balance and
    reference instant: hammering an exhausted limiter neither postpones nor
    advances the next token, and the first call a whole interval after the
    last refill is allowed whatever was sent in between. *)
Theorem refused_calls_leave_no_trace (r : RateLimiter) (nows : list Time) (later : Time) :
  wf_limiter r -> tokens r <= 0 ->
  Forall (fun now => 0 <= Sub now (lastRefillTime r) < refillRate r) nows ->
  Allows nows r = Returned (r, repeat false (length nows)) /\
  (is_time later -> 0 < refillRate r <= later - lastRefillTime r ->
   1 <= maxTokens r -> tokens r = 0 ->
   exists r', Allows (nows ++ [later]) r
              = Returned (r', repeat false (length nows) ++ [true])).
Proof.
  intros Hwf Hempty Hall.
  assert (Hrun : Allows nows r = Returned (r, repeat false (length nows))).
  { rewrite Allows_no_refill by (try done; apply Hwf).
    replace (Z.to_nat (tokens r)) with 0%nat by lia. simpl.
    rewrite Z.sub_0_r, Nat.sub_0_r. destruct r; done. }
  split; [done|].
  intros Hlater Hwait Hcap Hzero.
  assert (Happ : forall l1 l2 r0 r1 bs1,
             Allows l1 r0 = Returned (r1, bs1) ->
             Allows (l1 ++ l2) r0
             = (rbs <- Allows l2 r1 ;; Returned (fst rbs, bs1 ++ snd rbs))).
  { induction l1 as [|t l1 IH]; intros l2 r0 r1 bs1; simpl.
    - intros [= <- <-]. destruct (Allows l2 r0) as [[? ?]|]; done.
    - destruct (Allow t r0) as [[r2 b2]|]; [|done]. simpl.
      destruct (Allows l1 r2) as [[r3 bs3]|] eqn:E; [|done]. simpl.
      intros [= <- <-]. rewrite (IH l2 r2 r3 bs3 E).
      destruct (Allows l2 r3) as [[? ?]|]; done. }
  rewrite (Happ _ _ _ _ _ Hrun). simpl.
  assert (H0 : 0 < refillRate r) by lia.
  unfold Allow. rewrite refill_spec; try done; try lia.
  - simpl. unfold consume.
    assert (Hq : 1 <= (later - lastRefillTime r) / refillRate r)
      by (apply Z.div_le_lower_bound; lia).
    unfold spec_refill. cbv zeta.
    destruct (Z.ltb_spec 0 ((later - lastRefillTime r) / refillRate r)); [|lia].
    simpl.
    pose proof (Z.min_spec (tokens r + (later - lastRefillTime r) / refillRate r)
                  (maxTokens r)).
    destruct (Z.ltb_spec 0 (Z.min (tokens r + (later - lastRefillTime r) / refillRate r)
                               (maxTokens r))); [|lia].
    simpl. eauto.
  - intros _. rewrite Hzero.
    assert ((later - lastRefillTime r) / refillRate r <= later - lastRefillTime r).
    { apply Z.div_le_upper_bound; [done|].
      destruct Hwf as (_ & _ & _ & Hl). unfold is_time in *. nia. }
    unfold is_time in *. destruct Hwf as (_ & _ & _ & Hl). unfold is_time in Hl. lia.
Qed.

Lemma refused_calls_leave_no_trace_witness :
  let r := {| tokens := 0; maxTokens := 3; refillRate := 10; lastRefillTime := 100 |} in
  Allows [103; 106; 109] r = Returned (r, repeat false 3) /\
  (is_time 110 -> 0 < 10 <= 110 - 100 -> 1 <= 3 -> 0 = 0 ->
   exists r', Allows ([103; 106; 109] ++ [110]) r
              = Returned (r', repeat false 3 ++ [true])).
Proof.
  apply (refused_calls_leave_no_trace
           {| tokens := 0; maxTokens := 3; refillRate := 10; lastRefillTime := 100 |}
           [103; 106; 109] 110).
  - int_bounds.
  - simpl. lia.
  - repeat constructor; vm_compute; discriminate.
Defined.

(** Polling costs tokens: the remainder of an interval is dropped at each
    refill, so two calls, 19 and 38 nanoseconds after the last refill, earn
    one token each against an interval of ten, where a single call at 38
    earns three. *)
Example polling_loses_partial_intervals :
  let r := {| tokens := 0; maxTokens := 9; refillRate := 10; lastRefillTime := 0 |} in
  (exists r', Allows [19; 38] r = Returned (r', [true; true]) /\ tokens r' = 0) /\
  (exists r', Allows [38] r = Returned (r', [true]) /\ tokens r' = 2).
Proof. cbv zeta. split; eexists; split; reflexivity. Qed.
